(** * PGProbRatioModel: likelihood-ratio policy-gradient model

    A shallow embedding of [tensorforce/models/pg_prob_ratio_model.py].

    Tensors hold real numbers: the floating-point values of the program are
    read as the reals they denote, so rounding, infinities and NaN are outside
    this development.  Shape errors and missing dictionary keys, which raise
    in the program, are the [None] of the [option] monad. *)

From Stdlib Require Import Reals Lra.
From stdpp Require Import gmap strings list sorting.

Local Open Scope R_scope.

(** ** Tensors *)

(** A tensor of any rank: its static shape and its entries in row-major
    order. *)
Record Tensor := mkTensor { shape : list nat; data : list R }.

(** A rank-two tensor is kept as the list of its rows, a rank-one tensor as
    the list of its entries. *)
Abbreviation Matrix := (list (list R)).
Abbreviation Vector := (list R).

(** The entries of a tensor fill its shape. *)
Definition well_shaped (t : Tensor) : Prop :=
  length (data t) = foldr Nat.mul 1%nat (shape t).

(** Modelled from the spec: [util.shape] is a helper of the repository
    outside this file; section 4.1 (e) has it give the sizes of a tensor's
    dimensions, the batch dimension first. *)
Definition util_shape (x : Tensor) : list nat := shape x.

(** Modelled from the spec: [util.prod] is a helper of the repository
    outside this file; section 4.1 (e) has the non-batch dimensions
    collapsed, so it is the product of the sizes it is given. *)
Definition util_prod (xs : list nat) : nat := foldr Nat.mul 1%nat xs.

(** [tf.stop_gradient]: the identity on values. *)
Definition tf_stop_gradient (input : Tensor) : Tensor := input.

(** [tf.exp], entry by entry, on a tensor of any rank and on a rank-one
    tensor. *)
Definition tf_exp (x : Tensor) : Tensor := mkTensor (shape x) (exp <$> data x).
Definition tf_exp1 (x : Vector) : Vector := exp <$> x.

(** Subtraction of two tensors of one shape, entry by entry.  The program
    only subtracts a tensor from itself at this rank, so operands of different
    shapes are left out. *)
Definition tf_sub (x y : Tensor) : option Tensor :=
  if decide (shape x = shape y)
  then Some (mkTensor (shape x) (zip_with Rminus (data x) (data y)))
  else None.

(** [n] consecutive rows of [c] entries each. *)
Fixpoint chunks (n c : nat) (l : list R) : Matrix :=
  match n with
  | O => []
  | S n' => take c l :: chunks n' c (drop c l)
  end.

(** [tf.reshape(tensor, shape=(-1, c))]: the row count is inferred; it cannot
    be when [c] is zero or does not divide the number of entries. *)
Definition tf_reshape (tensor : Tensor) (c : nat) : option Matrix :=
  let total := length (data tensor) in
  if decide (c = 0%nat) then None
  else if decide (total `mod` c = 0)%nat
       then Some (chunks (total `div` c) c (data tensor))
       else None.

(** [tf.concat(values, axis=1)] of rank-two tensors: an empty list of values
    is refused, and so are values whose row counts differ. *)
Fixpoint tf_concat (values : list Matrix) : option Matrix :=
  match values with
  | [] => None
  | [m] => Some m
  | m :: ms =>
      r ← tf_concat ms;
      if decide (length m = length r) then Some (zip_with app m r) else None
  end.

Definition sum (l : list R) : R := foldr Rplus 0 l.
Definition mean (l : list R) : R := sum l / INR (length l).

(** [tf.reduce_mean(input_tensor, axis=1)] on a rank-two tensor, and
    [tf.reduce_mean(input_tensor, axis=0)] on a rank-one tensor. *)
Definition tf_reduce_mean_axis1 (input_tensor : Matrix) : Vector :=
  mean <$> input_tensor.
Definition tf_reduce_mean_axis0 (input_tensor : Vector) : R :=
  mean input_tensor.

(** An entry-wise binary operation on rank-one tensors with broadcasting:
    equal lengths pair up, a one-entry operand is stretched, anything else is
    a shape error. *)
Definition tf_broadcast (f : R → R → R) (x y : Vector) : option Vector :=
  if decide (length x = length y) then Some (zip_with f x y)
  else match x, y with
       | [a], _ => Some (f a <$> y)
       | _, [b] => Some ((λ a, f a b) <$> x)
       | _, _ => None
       end.

(** [tf.clip_by_value]: first the minimum with the upper bound, then the
    maximum with the lower bound. *)
Definition clip (lo hi t : R) : R := Rmax (Rmin t hi) lo.
Definition tf_clip_by_value (t : Vector) (clip_value_min clip_value_max : R)
  : Vector :=
  clip clip_value_min clip_value_max <$> t.

(** [tf.add_n]: the sum of its inputs. *)
Definition tf_add_n (inputs : list R) : R := sum inputs.

(** Python's division of floats, [x / y]: a zero divisor raises
    [ZeroDivisionError]. *)
Definition py_div (x y : R) : option R :=
  if Req_dec_T y 0 then None else Some (x / y).

(** ** Dictionaries *)

(** A Python dictionary whose iteration order matters is the list of its
    items in insertion order; its keys are pairwise distinct. *)
Abbreviation dict V := (list (string * V)).

Definition keys {V} (d : dict V) : list string := d.*1.
Definition values {V} (d : dict V) : list V := d.*2.

(** [d[name]]: the value stored under [name], a [KeyError] otherwise. *)
Fixpoint getitem {V} (d : dict V) (name : string) : option V :=
  match d with
  | [] => None
  | (k, v) :: d' => if decide (k = name) then Some v else getitem d' name
  end.

(** [sorted]: ascending order of the names, compared character by
    character. *)
Definition sorted (names : list string) : list string :=
  merge_sort String.le names.

(** ** The model and its collaborators *)

(** The policy network: [apply(x, internals, update)] gives the embedding. *)
Record Network := mkNetwork {
  apply : gmap string Tensor → list Tensor → bool → Tensor
}.

(** The probability distribution of one action channel. *)
Record Distribution := mkDistribution {
  parameterize : Tensor → list Tensor;
  log_probability : list Tensor → Tensor → Tensor
}.

(** Python objects stored as attributes and optimizer arguments: [None], a
    template made by [tf.make_template] from a name and a method, or any
    other object, named by an identifier. *)
Inductive Method := Tf_reference | Tf_compare.
Inductive PyObj :=
  | PyNone
  | PyTemplate (name_ : string) (func_ : Method) (custom_getter_ : nat)
  | PyOther (id : nat).

(** The arguments shared by the methods of the model. *)
Record Batch := mkBatch {
  states : gmap string Tensor;
  internals : list Tensor;
  actions : gmap string Tensor;
  terminal : list bool;
  reward : Vector;
  next_states : gmap string Tensor;
  next_internals : list Tensor;
  update : bool
}.

(** What the superclass [PGModel] provides: the attributes set by its
    constructor and the methods this class calls. *)
Record PGModel := mkPGModel {
  network : Network;
  distributions : dict Distribution;
  fn_reward_estimation :
    gmap string Tensor → list Tensor → list bool → Vector → bool → Vector;
  fn_regularization_losses :
    gmap string Tensor → list Tensor → bool → dict R;
  super_optimizer_arguments :
    gmap string Tensor → list Tensor → gmap string Tensor → list bool →
    Vector → gmap string Tensor → list Tensor → gmap string PyObj
}.

Record PGProbRatioModel := mkPGProbRatioModel {
  base : PGModel;
  likelihood_ratio_clipping : option R;
  reference : PyObj;
  compare : PyObj
}.

(** Exceptions: the failed assertion of line 59, or whatever the constructor
    of the superclass raises. *)
Inductive exception := AssertionError | SuperclassError (e : string).

(** ** Construction *)

Section Construction.
(** The constructor and [initialize] of the superclass, given the keyword
    arguments passed on to them. *)
Variable PGModel__init__ : gmap string PyObj → string + PGModel.
Variable PGModel_initialize : PGModel → nat → PGModel.

(** [PGProbRatioModel.__init__]; [kwargs] are the arguments handed on to
    the superclass unchanged. *)
Definition __init__ (kwargs : gmap string PyObj)
    (likelihood_ratio_clipping : option R) : exception + PGProbRatioModel :=
  if match likelihood_ratio_clipping with
     | None => true
     | Some eps => if Rgt_dec eps 0 then true else false
     end
  then
    match PGModel__init__ kwargs with
    | inl e => inl (SuperclassError e)
    | inr super =>
        inr {| base := super;
               likelihood_ratio_clipping := likelihood_ratio_clipping;
               reference := PyNone;
               compare := PyNone |}
    end
  else inl AssertionError.

(** [PGProbRatioModel.initialize] *)
Definition initialize (self : PGProbRatioModel) (custom_getter : nat)
    : PGProbRatioModel :=
  {| base := PGModel_initialize (base self) custom_getter;
     likelihood_ratio_clipping := likelihood_ratio_clipping self;
     reference := PyTemplate "reference" Tf_reference custom_getter;
     compare := PyTemplate "compare" Tf_compare custom_getter |}.
End Construction.

(** ** The loss and the two comparison functions *)

(** Lines 107-119 of [tf_loss_per_instance]: the reshaped probability ratio
    of every action channel, in the iteration order of the dictionary. *)
Definition loss_prob_ratios (self : PGProbRatioModel) (b : Batch)
    : option (list Matrix) :=
  let embedding :=
    apply (network (base self)) (states b) (internals b) (update b) in
  mapM (λ '(name, distribution),
      let distr_params := parameterize distribution embedding in
      action ← actions b !! name;
      let log_prob := log_probability distribution distr_params action in
      let fixed_log_prob := tf_stop_gradient log_prob in
      prob_ratio ← tf_exp <$> tf_sub log_prob fixed_log_prob;
      let collapsed_size := util_prod (tail (util_shape prob_ratio)) in
      tf_reshape prob_ratio collapsed_size)
    (distributions (base self)).

(** Line 120: the ratio of each instance. *)
Definition loss_prob_ratio (self : PGProbRatioModel) (b : Batch)
    : option Vector :=
  prob_ratios ← loss_prob_ratios self b;
  tf_reduce_mean_axis1 <$> tf_concat prob_ratios.

(** Lines 121-129: clipped or not, the loss of each instance from its
    ratio and its reward.  The bounds of the clipping are computed in Python
    before [tf.clip_by_value] is called. *)
Definition loss_from_ratio (likelihood_ratio_clipping : option R)
    (prob_ratio reward : Vector) : option Vector :=
  match likelihood_ratio_clipping return option Vector with
  | None => tf_broadcast Rmult (Ropp <$> prob_ratio) reward
  | Some eps =>
      clip_value_min ← py_div 1 (1 + eps);
      let clipped_prob_ratio :=
        tf_clip_by_value prob_ratio clip_value_min (1 + eps) in
      x ← tf_broadcast Rmult prob_ratio reward;
      y ← tf_broadcast Rmult clipped_prob_ratio reward;
      fmap (M:=list) Ropp <$> tf_broadcast Rmin x y
  end.

Definition tf_loss_per_instance (self : PGProbRatioModel) (b : Batch)
    : option Vector :=
  prob_ratio ← loss_prob_ratio self b;
  loss_from_ratio (likelihood_ratio_clipping self) prob_ratio (reward b).

Definition tf_reference (self : PGProbRatioModel) (b : Batch)
    : option Vector :=
  let embedding :=
    apply (network (base self)) (states b) (internals b) (update b) in
  log_probs ←
    mapM (λ name,
        distribution ← getitem (distributions (base self)) name;
        let distr_params := parameterize distribution embedding in
        action ← actions b !! name;
        let log_prob := log_probability distribution distr_params action in
        let collapsed_size := util_prod (tail (util_shape log_prob)) in
        tf_reshape log_prob collapsed_size)
      (sorted (keys (distributions (base self))));
  tf_reduce_mean_axis1 <$> tf_concat log_probs.

(** Lines 144-150 of [tf_compare]: the estimated reward. *)
Definition compare_reward (self : PGProbRatioModel) (b : Batch) : Vector :=
  fn_reward_estimation (base self)
    (states b) (internals b) (terminal b) (reward b) (update b).

(** Lines 151-160: the log-probability of each instance. *)
Definition compare_log_prob (self : PGProbRatioModel) (b : Batch)
    : option Vector :=
  let embedding :=
    apply (network (base self)) (states b) (internals b) (update b) in
  log_probs ←
    mapM (λ name,
        distribution ← getitem (distributions (base self)) name;
        let distr_params := parameterize distribution embedding in
        action ← actions b !! name;
        let log_prob := log_probability distribution distr_params action in
        let collapsed_size := util_prod (tail (util_shape log_prob)) in
        tf_reshape log_prob collapsed_size)
      (sorted (keys (distributions (base self))));
  tf_reduce_mean_axis1 <$> tf_concat log_probs.

(** Line 161: the ratio of each instance against the reference. *)
Definition compare_prob_ratio (self : PGProbRatioModel)
    (reference : Vector) (b : Batch) : option Vector :=
  log_prob ← compare_log_prob self b;
  tf_exp1 <$> tf_broadcast Rminus log_prob reference.

(** Lines 162-170: clipped or not, the gain of each instance from its ratio
    and its reward.  The bounds of the clipping are computed in Python before
    [tf.clip_by_value] is called. *)
Definition gain_per_instance (likelihood_ratio_clipping : option R)
    (prob_ratio reward : Vector) : option Vector :=
  match likelihood_ratio_clipping return option Vector with
  | None => tf_broadcast Rmult prob_ratio reward
  | Some eps =>
      clip_value_min ← py_div 1 (1 + eps);
      let clipped_prob_ratio :=
        tf_clip_by_value prob_ratio clip_value_min (1 + eps) in
      x ← tf_broadcast Rmult prob_ratio reward;
      y ← tf_broadcast Rmult clipped_prob_ratio reward;
      tf_broadcast Rmin x y
  end.

Definition compare_gain_per_instance (self : PGProbRatioModel)
    (reference : Vector) (b : Batch) : option Vector :=
  let reward := compare_reward self b in
  prob_ratio ← compare_prob_ratio self reference b;
  gain_per_instance (likelihood_ratio_clipping self) prob_ratio reward.

Definition tf_compare (self : PGProbRatioModel) (reference : Vector)
    (b : Batch) : option R :=
  gain_per_instance ← compare_gain_per_instance self reference b;
  let gain := tf_reduce_mean_axis0 gain_per_instance in
  let losses :=
    fn_regularization_losses (base self)
      (states b) (internals b) (update b) in
  if bool_decide (0 < length losses)%nat
  then Some (gain - tf_add_n (values losses))
  else Some gain.

(** ** Optimizer arguments *)

Definition optimizer_arguments (self : PGProbRatioModel)
    (states : gmap string Tensor) (actions : gmap string Tensor)
    (terminal : list bool) (reward : Vector) (internals : list Tensor)
    (next_states : gmap string Tensor) (next_internals : list Tensor)
    : gmap string PyObj :=
  let arguments :=
    super_optimizer_arguments (base self)
      states internals actions terminal reward next_states next_internals in
  let arguments := <["fn_reference" := reference self]> arguments in
  let arguments := <["fn_compare" := compare self]> arguments in
  arguments.

(** ** Definitions used to state the properties *)

(** [clamp] as the specification words it: values below [lo] become [lo],
    values above [hi] become [hi], the others are kept. *)
Definition clamp (x lo hi : R) : R :=
  if Rlt_dec x lo then lo else if Rlt_dec hi x then hi else x.

(** The gain of one instance, as lines 162-170 compute it entry by entry. *)
Definition gain_of (clipping : option R) (ratio reward : R) : R :=
  match clipping with
  | None => ratio * reward
  | Some eps =>
      Rmin (ratio * reward)
           (clip (1 / (1 + eps)) (1 + eps) ratio * reward)
  end.

(** The clipped gain of one instance as the specification words it. *)
Definition clipped_gain (eps ratio reward : R) : R :=
  Rmin (ratio * reward) (clamp ratio (1 / (1 + eps)) (1 + eps) * reward).

(** The mean over the channels of the mean of each channel's entries: every
    channel with the same weight, whatever its size. *)
Definition equal_weight_mean (rows : list (list R)) : R := mean (mean <$> rows).

(** The model with another dictionary of distributions. *)
Definition with_distributions (self : PGProbRatioModel)
    (d : dict Distribution) : PGProbRatioModel :=
  {| base :=
       {| network := network (base self);
          distributions := d;
          fn_reward_estimation := fn_reward_estimation (base self);
          fn_regularization_losses := fn_regularization_losses (base self);
          super_optimizer_arguments := super_optimizer_arguments (base self) |};
     likelihood_ratio_clipping := likelihood_ratio_clipping self;
     reference := reference self;
     compare := compare self |}.

(** A batch of [n] instances fits the model: there is at least one action
    channel, every channel has its action in the batch and a log-probability
    of shape [n :: s] with no empty dimension in [s], and there is one reward
    per instance. *)
Definition channel_ok (embedding : Tensor) (b : Batch) (n : nat)
    (item : string * Distribution) : Prop :=
  ∃ action s,
    actions b !! item.1 = Some action ∧
    shape (log_probability item.2 (parameterize item.2 embedding) action)
      = n :: s ∧
    util_prod s ≠ 0%nat ∧
    length (data (log_probability item.2 (parameterize item.2 embedding) action))
      = (n * util_prod s)%nat.

Definition batch_ok (self : PGProbRatioModel) (b : Batch) (n : nat) : Prop :=
  distributions (base self) ≠ [] ∧
  Forall (channel_ok
            (apply (network (base self)) (states b) (internals b) (update b))
            b n)
    (distributions (base self)) ∧
  length (reward b) = n.

(** ** Example models *)

(** A distribution whose log-probability of an action is the action tensor
    itself, and a network with a constant embedding. *)
Definition echo : Distribution :=
  {| parameterize := λ _, []; log_probability := λ _ action, action |}.

Definition constant_network : Network :=
  {| apply := λ _ _ _, mkTensor [] [0] |}.

(** A base model over the given channels that estimates the reward as the
    reward itself, with given regularisation losses and no optimizer
    arguments of its own. *)
Definition example_base (d : dict Distribution) (losses : dict R) : PGModel :=
  {| network := constant_network;
     distributions := d;
     fn_reward_estimation := λ _ _ _ reward _, reward;
     fn_regularization_losses := λ _ _ _, losses;
     super_optimizer_arguments := λ _ _ _ _ _ _ _, {["fn_loss" := PyOther 0]} |}.

Definition example_model (d : dict Distribution) (losses : dict R)
    (clipping : option R) : PGProbRatioModel :=
  {| base := example_base d losses;
     likelihood_ratio_clipping := clipping;
     reference := PyNone;
     compare := PyNone |}.

Definition example_batch (actions : gmap string Tensor) (reward : Vector)
    : Batch :=
  {| states := ∅; internals := []; actions := actions;
     terminal := []; reward := reward;
     next_states := ∅; next_internals := []; update := false |}.

(** One channel "a", two instances, clipping at one fifth: against a zero
    reference the ratios are 3/2 and 1/2. *)
Definition scenario_model : PGProbRatioModel :=
  example_model [("a", echo)] [] (Some (1 / 5)).
Definition scenario_batch : Batch :=
  example_batch {["a" := mkTensor [2%nat] [ln (3 / 2); ln (1 / 2)]]} [1; -1].

(** Two channels: "a" with actions of shape (2,), "b" with scalar actions;
    one instance. *)
Definition two_channel_model : PGProbRatioModel :=
  example_model [("a", echo); ("b", echo)] [] None.
Definition two_channel_batch : Batch :=
  example_batch
    {["a" := mkTensor [1%nat; 2%nat] [0; 0]; "b" := mkTensor [1%nat] [3]]} [1].

(** A superclass constructor that always succeeds. *)
Definition example_init (kwargs : gmap string PyObj) : string + PGModel :=
  inr (example_base [("a", echo)] []).

(** Evaluation of the operations on concrete tensors. *)
Ltac run :=
  repeat first
    [ progress cbn -[clip]
    | rewrite decide_True by done
    | rewrite decide_False by done
    | rewrite lookup_singleton_eq
    | rewrite lookup_insert_eq
    | rewrite lookup_insert_ne by done
    | progress unfold tf_reshape, tf_broadcast, tf_sub, tf_exp1,
        tf_clip_by_value, tf_reduce_mean_axis1, tf_reduce_mean_axis0,
        tf_add_n, util_prod, util_shape ].

Ltac bounds_defined :=
  first
    [ by intros ? [=]
    | intros ? [= <-]; lra
    | let Heq := fresh in
      intros ? Heq;
      match goal with
      | H : ∀ eps, _ = Some eps → 0 < eps |- _ => specialize (H _ Heq); lra
      end
    | lra ].

Ltac by_cases_min_max :=
  unfold clip, clamp, Rmin, Rmax;
  repeat (destruct (Rle_dec _ _) || destruct (Rlt_dec _ _)); lra.

(** ** Facts about the tensor operations *)

Lemma sum_replicate (n : nat) (x : R) : sum (replicate n x) = INR n * x.
Proof.
  induction n as [|n IH]; [simpl; lra|].
  change (sum (replicate (S n) x)) with (x + sum (replicate n x)).
  rewrite IH, S_INR. lra.
Qed.

Lemma mean_ones (n : nat) : n ≠ 0%nat → mean (replicate n 1) = 1.
Proof.
  intros Hn. unfold mean. rewrite sum_replicate, length_replicate.
  assert (INR n ≠ 0) by (apply not_0_INR; exact Hn).
  field. assumption.
Qed.

Lemma tf_broadcast_same (f : R → R → R) (x y : Vector) :
  length x = length y → tf_broadcast f x y = Some (zip_with f x y).
Proof. intros H. unfold tf_broadcast. by rewrite decide_True. Qed.

Lemma exp_sub_self (l : list R) :
  exp <$> zip_with Rminus l l = replicate (length l) 1.
Proof.
  induction l as [|x l IH]; [done|].
  cbn [zip_with fmap list_fmap length replicate].
  f_equal; [|exact IH].
  replace (x - x) with 0 by lra. apply exp_0.
Qed.

Lemma clip_clamp (lo hi t : R) : lo <= hi → clip lo hi t = clamp t lo hi.
Proof.
  intros H. unfold clip, clamp, Rmax, Rmin.
  repeat (destruct (Rle_dec _ _) || destruct (Rlt_dec _ _)); lra.
Qed.

Lemma clip_bounds_ordered (eps : R) : 0 < eps → 1 / (1 + eps) < 1 + eps.
Proof.
  intros H.
  assert (H1 : 0 < / (1 + eps)) by (apply Rinv_0_lt_compat; lra).
  assert (H2 : / (1 + eps) * (1 + eps) = 1) by (field; lra).
  unfold Rdiv. nra.
Qed.

(** With a positive reward the clipped gain is the ratio capped from above,
    times the reward. *)
Lemma clipped_gain_capped (lo hi r w : R) :
  lo <= hi → 0 < w →
  Rmin (r * w) (clip lo hi r * w) = Rmin r hi * w.
Proof.
  intros Hlh Hw. unfold clip, Rmax, Rmin.
  repeat destruct (Rle_dec _ _); nra.
Qed.

Lemma clipped_gain_mono (e1 e2 r w : R) :
  0 < e1 → e1 <= e2 → 0 < w →
  Rmin (r * w) (clip (1 / (1 + e1)) (1 + e1) r * w)
  <= Rmin (r * w) (clip (1 / (1 + e2)) (1 + e2) r * w).
Proof.
  intros H1 H12 Hw.
  pose proof (clip_bounds_ordered e1 H1).
  pose proof (clip_bounds_ordered e2 ltac:(lra)).
  rewrite !clipped_gain_capped by lra.
  unfold Rmin. repeat destruct (Rle_dec _ _); nra.
Qed.

Lemma zip_with_min_products (f : R → R) (ratio reward : Vector) :
  zip_with Rmin (zip_with Rmult ratio reward)
                (zip_with Rmult (f <$> ratio) reward)
  = zip_with (λ r w, Rmin (r * w) (f r * w)) ratio reward.
Proof.
  revert reward. induction ratio as [|r ratio IH]; intros [|w reward]; try done.
  cbn. by rewrite IH.
Qed.

Lemma py_div_defined (x y : R) : y ≠ 0 → py_div x y = Some (x / y).
Proof. intros Hy. unfold py_div. by destruct (Req_dec_T y 0). Qed.

Lemma py_div_zero (x : R) : py_div x 0 = None.
Proof. unfold py_div. by destruct (Req_dec_T 0 0). Qed.

Lemma gain_per_instance_same (clipping : option R) (ratio reward : Vector) :
  (∀ eps, clipping = Some eps → 1 + eps ≠ 0) →
  length ratio = length reward →
  gain_per_instance clipping ratio reward
  = Some (zip_with (gain_of clipping) ratio reward).
Proof.
  intros Hdef Hlen. destruct clipping as [eps|]; cbn -[clip].
  - rewrite py_div_defined by (by apply Hdef). cbn -[clip].
    unfold tf_clip_by_value.
    rewrite (tf_broadcast_same Rmult ratio reward) by done. cbn -[clip].
    rewrite (tf_broadcast_same Rmult (_ <$> ratio) reward)
      by (by rewrite length_fmap).
    cbn -[clip].
    rewrite tf_broadcast_same
      by (by rewrite !length_zip_with, length_fmap).
    by rewrite zip_with_min_products.
  - by rewrite tf_broadcast_same.
Qed.

Lemma zip_with_opp (f : R → R → R) (x y : Vector) :
  Ropp <$> zip_with f x y = zip_with (λ r w, - f r w) x y.
Proof.
  revert y. induction x as [|r x IH]; intros [|w y]; try done.
  cbn. by rewrite IH.
Qed.

Lemma loss_from_ratio_same (clipping : option R) (ratio reward : Vector) :
  (∀ eps, clipping = Some eps → 1 + eps ≠ 0) →
  length ratio = length reward →
  loss_from_ratio clipping ratio reward
  = Some (zip_with (λ r w, - gain_of clipping r w) ratio reward).
Proof.
  intros Hdef Hlen. destruct clipping as [eps|]; cbn -[clip].
  - rewrite py_div_defined by (by apply Hdef). cbn -[clip].
    unfold tf_clip_by_value.
    rewrite (tf_broadcast_same Rmult ratio reward) by done. cbn -[clip].
    rewrite (tf_broadcast_same Rmult (_ <$> ratio) reward)
      by (by rewrite length_fmap).
    cbn -[clip].
    rewrite tf_broadcast_same
      by (by rewrite !length_zip_with, length_fmap).
    cbn -[clip]. by rewrite zip_with_min_products, zip_with_opp.
  - rewrite tf_broadcast_same by (by rewrite length_fmap). f_equal.
    clear. revert ratio.
    induction reward as [|w l IH]; intros [|r ratio]; try done.
    cbn. rewrite IH. f_equal. lra.
Qed.

(** At the threshold -1 the lower bound [1.0 / (1.0 + eps)] divides by
    zero, and neither the loss nor the gains are returned. *)
Lemma threshold_minus_one_fails (ratio reward : Vector) :
  loss_from_ratio (Some (-1)) ratio reward = None ∧
  gain_per_instance (Some (-1)) ratio reward = None.
Proof.
  unfold loss_from_ratio, gain_per_instance.
  replace (1 + -1) with 0 by lra. by rewrite py_div_zero.
Qed.

Lemma loss_per_instance_same (self : PGProbRatioModel) (b : Batch)
    (prob_ratio : Vector) :
  (∀ eps, likelihood_ratio_clipping self = Some eps → 1 + eps ≠ 0) →
  loss_prob_ratio self b = Some prob_ratio →
  length prob_ratio = length (reward b) →
  tf_loss_per_instance self b
  = Some (zip_with (λ r w, - gain_of (likelihood_ratio_clipping self) r w)
            prob_ratio (reward b)).
Proof.
  intros Hdef Hratio Hlen. unfold tf_loss_per_instance. rewrite Hratio. cbn.
  by apply loss_from_ratio_same.
Qed.

(** ** The concrete scenario *)

Lemma scenario_log_prob :
  compare_log_prob scenario_model scenario_batch
  = Some [ln (3 / 2); ln (1 / 2)].
Proof.
  unfold compare_log_prob. run. unfold mean. cbn. repeat f_equal; lra.
Qed.

Lemma scenario_prob_ratio :
  compare_prob_ratio scenario_model [0; 0] scenario_batch
  = Some [3 / 2; 1 / 2].
Proof.
  unfold compare_prob_ratio. rewrite scenario_log_prob. run.
  by rewrite !Rminus_0_r, !exp_ln by lra.
Qed.

Lemma scenario_clipped :
  tf_clip_by_value [3 / 2; 1 / 2] (1 / (1 + 1 / 5)) (1 + 1 / 5)
  = [6 / 5; 5 / 6].
Proof.
  unfold tf_clip_by_value. cbn -[clip]. repeat f_equal; by_cases_min_max.
Qed.

Lemma scenario_gain_per_instance :
  compare_gain_per_instance scenario_model [0; 0] scenario_batch
  = Some [6 / 5; - (5 / 6)].
Proof.
  unfold compare_gain_per_instance. rewrite scenario_prob_ratio.
  cbn -[clip gain_per_instance].
  rewrite gain_per_instance_same by first [done | bounds_defined].
  cbn -[clip]. repeat f_equal; by_cases_min_max.
Qed.

Lemma scenario_gain :
  tf_compare scenario_model [0; 0] scenario_batch = Some (11 / 60).
Proof.
  unfold tf_compare. rewrite scenario_gain_per_instance. run.
  unfold mean. cbn. f_equal. lra.
Qed.

(** C1 (as the code has it): with clip threshold 1/5, two instances, one
    action channel, ratios 3/2 and 1/2 and rewards 1 and -1, the clipped
    ratios are 6/5 and 5/6 (the lower bound is 1/(1+1/5)), the gains of the
    instances are 6/5 and -5/6, and their mean, before any regularisation
    loss is subtracted, is 11/60. *)
Theorem scenario_compare :
  compare_prob_ratio scenario_model [0; 0] scenario_batch
    = Some [3 / 2; 1 / 2] ∧
  compare_reward scenario_model scenario_batch = [1; -1] ∧
  tf_clip_by_value [3 / 2; 1 / 2] (1 / (1 + 1 / 5)) (1 + 1 / 5)
    = [6 / 5; 5 / 6] ∧
  compare_gain_per_instance scenario_model [0; 0] scenario_batch
    = Some [6 / 5; - (5 / 6)] ∧
  tf_compare scenario_model [0; 0] scenario_batch = Some (11 / 60).
Proof.
  split; [exact scenario_prob_ratio|].
  split; [reflexivity|].
  split; [exact scenario_clipped|].
  split; [exact scenario_gain_per_instance|exact scenario_gain].
Qed.

(** C1 as stated fails: the clipped ratios are not 6/5 and 4/5, the gains
    are not 6/5 and -1/2, and the mean gain is not 7/20. *)
Lemma scenario_compare_not_as_stated :
  tf_clip_by_value [3 / 2; 1 / 2] (1 / (1 + 1 / 5)) (1 + 1 / 5)
    ≠ [6 / 5; 4 / 5] ∧
  compare_gain_per_instance scenario_model [0; 0] scenario_batch
    ≠ Some [6 / 5; - (1 / 2)] ∧
  tf_compare scenario_model [0; 0] scenario_batch ≠ Some (7 / 20).
Proof.
  rewrite scenario_clipped, scenario_gain_per_instance, scenario_gain.
  repeat split; intros H; simplify_eq; lra.
Qed.

(** ** The loss of each instance *)

Lemma scenario_loss_prob_ratio :
  loss_prob_ratio scenario_model scenario_batch = Some [1; 1].
Proof.
  unfold loss_prob_ratio, loss_prob_ratios. run.
  replace (ln (3 / 2) - ln (3 / 2)) with 0 by lra.
  replace (ln (1 / 2) - ln (1 / 2)) with 0 by lra.
  rewrite exp_0. unfold mean. cbn. repeat f_equal; lra.
Qed.

(** C2: for every ratio and reward vector of one length, lines 121-129
    return [- ratio * reward] for each instance when there is no clip
    threshold, and
    [- min (ratio * reward) (clamp ratio (1/(1+eps)) (1+eps) * reward)],
    the minimum of the signed products, when the threshold [eps] is
    positive; [tf_loss_per_instance] returns this for the ratio of line 120
    and the rewards of the batch. *)
Theorem loss_per_instance_formula (clipping : option R)
    (prob_ratio rewards : Vector) :
  length prob_ratio = length rewards →
  (∀ eps, clipping = Some eps → 0 < eps) →
  loss_from_ratio clipping prob_ratio rewards
    = Some (zip_with
              (λ ratio_i reward_i,
                 match clipping with
                 | None => - ratio_i * reward_i
                 | Some eps =>
                     - Rmin (ratio_i * reward_i)
                            (clamp ratio_i (1 / (1 + eps)) (1 + eps)
                             * reward_i)
                 end)
              prob_ratio rewards) ∧
  ∀ self b,
    likelihood_ratio_clipping self = clipping →
    loss_prob_ratio self b = Some prob_ratio →
    reward b = rewards →
    tf_loss_per_instance self b
    = Some (zip_with
              (λ ratio_i reward_i,
                 match clipping with
                 | None => - ratio_i * reward_i
                 | Some eps =>
                     - Rmin (ratio_i * reward_i)
                            (clamp ratio_i (1 / (1 + eps)) (1 + eps)
                             * reward_i)
                 end)
              prob_ratio rewards).
Proof.
  intros Hlen Hpos.
  assert (Hformula :
    loss_from_ratio clipping prob_ratio rewards
    = Some (zip_with
              (λ ratio_i reward_i,
                 match clipping with
                 | None => - ratio_i * reward_i
                 | Some eps =>
                     - Rmin (ratio_i * reward_i)
                            (clamp ratio_i (1 / (1 + eps)) (1 + eps)
                             * reward_i)
                 end)
              prob_ratio rewards)).
  { rewrite loss_from_ratio_same by first [done | bounds_defined].
    f_equal. apply zip_with_ext; [|done..].
    intros r w. destruct clipping as [eps|]; cbn -[clip].
    - rewrite clip_clamp; [done|].
      apply Rlt_le, clip_bounds_ordered, Hpos. done.
    - lra. }
  split; [exact Hformula|].
  intros self b Hclipping Hratio Hreward.
  unfold tf_loss_per_instance. rewrite Hratio, Hclipping, Hreward. cbn.
  exact Hformula.
Qed.

Lemma loss_per_instance_formula_witness :
  loss_from_ratio (Some (1 / 5)) [3 / 2; 1 / 2] [1; -1]
    = Some [- (6 / 5); 5 / 6] ∧
  tf_loss_per_instance scenario_model scenario_batch = Some [-1; 1].
Proof.
  destruct (loss_per_instance_formula (Some (1 / 5)) [3 / 2; 1 / 2] [1; -1])
    as [Hformula _]; [reflexivity | intros eps [= <-]; lra |].
  destruct (loss_per_instance_formula (Some (1 / 5)) [1; 1] [1; -1])
    as [_ Hloss]; [reflexivity | intros eps [= <-]; lra |].
  split.
  - rewrite Hformula. cbn. repeat f_equal; by_cases_min_max.
  - rewrite (Hloss scenario_model scenario_batch eq_refl
               scenario_loss_prob_ratio eq_refl).
    cbn. repeat f_equal; by_cases_min_max.
Defined.

(** ** Construction *)

(** C3: construction fails on the assertion exactly when the clip threshold
    is given and is not positive; otherwise the constructor of the superclass
    is called, and whenever construction succeeds the threshold is stored as
    it was given. *)
Theorem init_checks_clipping (PGModel__init__ : gmap string PyObj → string + PGModel)
    (kwargs : gmap string PyObj) (clipping : option R) :
  (__init__ PGModel__init__ kwargs clipping = inl AssertionError
   ↔ ∃ eps, clipping = Some eps ∧ eps <= 0) ∧
  ((clipping = None ∨ ∃ eps, clipping = Some eps ∧ 0 < eps) →
   ∀ super, PGModel__init__ kwargs = inr super →
     __init__ PGModel__init__ kwargs clipping
     = inr {| base := super; likelihood_ratio_clipping := clipping;
              reference := PyNone; compare := PyNone |}) ∧
  (∀ self, __init__ PGModel__init__ kwargs clipping = inr self →
     likelihood_ratio_clipping self = clipping).
Proof.
  unfold __init__. repeat split.
  - destruct clipping as [eps|].
    + destruct (Rgt_dec eps 0) as [Hgt|Hle].
      * destruct (PGModel__init__ kwargs); discriminate.
      * intros _. exists eps. split; [done|]. lra.
    + destruct (PGModel__init__ kwargs); discriminate.
  - intros (eps & -> & Hle). destruct (Rgt_dec eps 0); [lra|done].
  - intros Hvalid super Hsuper.
    destruct Hvalid as [->|(eps & -> & Hpos)].
    + by rewrite Hsuper.
    + destruct (Rgt_dec eps 0); [|lra]. by rewrite Hsuper.
  - intros self. destruct clipping as [eps|].
    + destruct (Rgt_dec eps 0); [|discriminate].
      destruct (PGModel__init__ kwargs); [discriminate|]. by intros [= <-].
    + destruct (PGModel__init__ kwargs); [discriminate|]. by intros [= <-].
Qed.

Lemma init_checks_clipping_witness :
  __init__ example_init ∅ (Some (-1)) = inl AssertionError ∧
  __init__ example_init ∅ (Some (1 / 5))
  = inr {| base := example_base [("a", echo)] [];
           likelihood_ratio_clipping := Some (1 / 5);
           reference := PyNone; compare := PyNone |}.
Proof.
  split.
  - apply (init_checks_clipping example_init ∅ (Some (-1))).
    exists (-1). split; [reflexivity|lra].
  - apply (init_checks_clipping example_init ∅ (Some (1 / 5))).
    + right. exists (1 / 5). split; [reflexivity|lra].
    + reflexivity.
Defined.

(** ** Reference and compare *)

Lemma compare_log_prob_reference (self : PGProbRatioModel) (b : Batch) :
  compare_log_prob self b = tf_reference self b.
Proof. reflexivity. Qed.

(** C4: when the result of [tf_reference] is handed to [tf_compare] with
    the same model and batch, the ratio of every instance is 1. *)
Theorem compare_after_reference_ratio (self : PGProbRatioModel) (b : Batch)
    (ref : Vector) :
  tf_reference self b = Some ref →
  compare_prob_ratio self ref b = Some (replicate (length ref) 1).
Proof.
  intros Href. unfold compare_prob_ratio.
  rewrite compare_log_prob_reference, Href. cbn.
  rewrite tf_broadcast_same by done. cbn.
  unfold tf_exp1. by rewrite exp_sub_self.
Qed.

Lemma compare_after_reference_ratio_witness :
  compare_prob_ratio scenario_model [ln (3 / 2); ln (1 / 2)] scenario_batch
  = Some [1; 1].
Proof.
  apply (compare_after_reference_ratio scenario_model scenario_batch
           [ln (3 / 2); ln (1 / 2)]).
  exact scenario_log_prob.
Defined.

(** C7: [tf_compare] takes the mean of the gains of the instances and,
    when there are regularisation losses, subtracts their sum; with no
    losses the mean is returned as it is. *)
Theorem compare_mean_minus_losses (self : PGProbRatioModel) (ref : Vector)
    (b : Batch) (gains : Vector) :
  compare_gain_per_instance self ref b = Some gains →
  tf_compare self ref b
  = Some (match fn_regularization_losses (base self)
                  (states b) (internals b) (update b) with
          | [] => mean gains
          | losses => mean gains - sum (values losses)
          end).
Proof.
  intros Hgains. unfold tf_compare. rewrite Hgains. cbn.
  destruct (fn_regularization_losses _ _ _ _) as [|loss losses]; cbn.
  - by rewrite bool_decide_eq_false_2 by lia.
  - by rewrite bool_decide_eq_true_2 by lia.
Qed.

Lemma compare_mean_minus_losses_witness :
  tf_compare scenario_model [0; 0] scenario_batch
    = Some (mean [6 / 5; - (5 / 6)]) ∧
  tf_compare (example_model [("a", echo)] [("l2", 1 / 20)] (Some (1 / 5)))
      [0; 0] scenario_batch
    = Some (mean [6 / 5; - (5 / 6)] - sum [1 / 20]).
Proof.
  split.
  - apply (compare_mean_minus_losses scenario_model [0; 0] scenario_batch).
    exact scenario_gain_per_instance.
  - apply (compare_mean_minus_losses
             (example_model [("a", echo)] [("l2", 1 / 20)] (Some (1 / 5)))
             [0; 0] scenario_batch).
    exact scenario_gain_per_instance.
Defined.

(** C9: with ratios and rewards fixed, the clipped gain of an instance
    whose reward is positive does not decrease when the clip threshold
    grows. *)
Theorem clipped_gain_monotone (eps1 eps2 : R) (prob_ratio reward : Vector) :
  0 < eps1 → eps1 <= eps2 →
  length prob_ratio = length reward →
  ∃ gains1 gains2,
    gain_per_instance (Some eps1) prob_ratio reward = Some gains1 ∧
    gain_per_instance (Some eps2) prob_ratio reward = Some gains2 ∧
    ∀ i ratio_i reward_i,
      prob_ratio !! i = Some ratio_i → reward !! i = Some reward_i →
      0 < reward_i →
      gains1 !! i = Some (clipped_gain eps1 ratio_i reward_i) ∧
      gains2 !! i = Some (clipped_gain eps2 ratio_i reward_i) ∧
      clipped_gain eps1 ratio_i reward_i <= clipped_gain eps2 ratio_i reward_i.
Proof.
  intros H1 H12 Hlen.
  eexists _, _.
  split; [apply gain_per_instance_same; [bounds_defined|done]|].
  split; [apply gain_per_instance_same; [bounds_defined|done]|].
  intros i r w Hr Hw Hpos.
  rewrite !lookup_zip_with, Hr, Hw. cbn -[clip]. unfold clipped_gain.
  rewrite <- !clip_clamp by (apply Rlt_le, clip_bounds_ordered; lra).
  repeat split. by apply clipped_gain_mono.
Qed.

Lemma clipped_gain_monotone_witness :
  ∃ gains1 gains2,
    gain_per_instance (Some (1 / 5)) [3 / 2] [2] = Some gains1 ∧
    gain_per_instance (Some (1 / 2)) [3 / 2] [2] = Some gains2 ∧
    ∀ i ratio_i reward_i,
      [3 / 2] !! i = Some ratio_i → [2] !! i = Some reward_i →
      0 < reward_i →
      gains1 !! i = Some (clipped_gain (1 / 5) ratio_i reward_i) ∧
      gains2 !! i = Some (clipped_gain (1 / 2) ratio_i reward_i) ∧
      clipped_gain (1 / 5) ratio_i reward_i
        <= clipped_gain (1 / 2) ratio_i reward_i.
Proof.
  apply (clipped_gain_monotone (1 / 5) (1 / 2) [3 / 2] [2]);
    [lra | lra | reflexivity].
Defined.

(** ** Optimizer arguments *)

(** C10: [optimizer_arguments] returns the mapping of the superclass with
    'fn_reference' bound to the model's reference and 'fn_compare' bound to
    its compare, which after [initialize] are the templates made from
    [tf_reference] and [tf_compare]; every other entry is the one of the
    superclass. *)
Theorem optimizer_arguments_extends_super (self : PGProbRatioModel)
    (st ac : gmap string Tensor) (te : list bool) (re : Vector)
    (int : list Tensor) (ns : gmap string Tensor) (ni : list Tensor) :
  let super_arguments :=
    super_optimizer_arguments (base self) st int ac te re ns ni in
  let arguments := optimizer_arguments self st ac te re int ns ni in
  arguments
    = <["fn_compare" := compare self]>
        (<["fn_reference" := reference self]> super_arguments) ∧
  arguments !! "fn_reference" = Some (reference self) ∧
  arguments !! "fn_compare" = Some (compare self) ∧
  (∀ key, key ≠ "fn_reference" → key ≠ "fn_compare" →
     arguments !! key = super_arguments !! key) ∧
  (∀ PGModel_initialize custom_getter,
     let self' := initialize PGModel_initialize self custom_getter in
     reference self' = PyTemplate "reference" Tf_reference custom_getter ∧
     compare self' = PyTemplate "compare" Tf_compare custom_getter).
Proof.
  cbn zeta. unfold optimizer_arguments. repeat split.
  - by rewrite lookup_insert_ne, lookup_insert_eq.
  - by rewrite lookup_insert_eq.
  - intros key H1 H2. by rewrite !lookup_insert_ne.
Qed.

Lemma optimizer_arguments_extends_super_witness :
  optimizer_arguments scenario_model ∅ ∅ [] [] [] ∅ [] !! "fn_loss"
  = Some (PyOther 0).
Proof.
  pose proof (optimizer_arguments_extends_super
                scenario_model ∅ ∅ [] [] [] ∅ []) as (_ & _ & _ & H & _).
  rewrite (H "fn_loss") by done. reflexivity.
Defined.

(** ** Order of the action channels *)

Lemma getitem_Some {V} (d : dict V) (name : string) (v : V) :
  NoDup (keys d) → getitem d name = Some v ↔ (name, v) ∈ d.
Proof.
  unfold keys. induction d as [|[k w] d IH]; cbn; intros Hnd.
  - split; [done|]. by intros ?%elem_of_nil.
  - apply NoDup_cons in Hnd as [Hk Hnd]. rewrite elem_of_cons.
    destruct (decide (k = name)) as [->|Hne].
    + split.
      * intros [= ->]. by left.
      * intros [[= ->]|Hin]; [done|].
        destruct Hk. apply list_elem_of_fmap. by exists (name, v).
    + rewrite (IH Hnd). split; [by right|].
      intros [[= ? ?]|?]; [congruence|done].
Qed.

Lemma getitem_None {V} (d : dict V) (name : string) :
  getitem d name = None ↔ name ∉ keys d.
Proof.
  unfold keys. induction d as [|[k w] d IH]; cbn.
  - split; [|done]. intros _ ?%elem_of_nil. done.
  - rewrite not_elem_of_cons. destruct (decide (k = name)) as [->|Hne].
    + split; [done|]. by intros [? _].
    + rewrite IH. split; [by split|]. by intros [_ ?].
Qed.

Lemma getitem_permutation {V} (d1 d2 : dict V) (name : string) :
  d1 ≡ₚ d2 → NoDup (keys d1) → getitem d1 name = getitem d2 name.
Proof.
  intros Hperm Hnd1.
  assert (Hnd2 : NoDup (keys d2)).
  { unfold keys in *. by rewrite <- Hperm. }
  destruct (getitem d1 name) as [v|] eqn:H1.
  - symmetry. apply getitem_Some; [done|]. rewrite <- Hperm.
    by apply getitem_Some.
  - symmetry. apply getitem_None. unfold keys. rewrite <- Hperm.
    by apply getitem_None.
Qed.

Lemma sorted_permutation (l1 l2 : list string) :
  l1 ≡ₚ l2 → sorted l1 = sorted l2.
Proof.
  intros Hperm. unfold sorted.
  apply (Sorted_unique String.le).
  - apply Sorted_merge_sort, _.
  - apply Sorted_merge_sort, _.
  - by rewrite !merge_sort_Permutation.
Qed.

Lemma two_channel_reference :
  tf_reference two_channel_model two_channel_batch = Some [1].
Proof.
  unfold tf_reference.
  replace (sorted (keys (distributions (base two_channel_model))))
    with ["a"; "b"] by (by vm_compute).
  run. unfold mean. cbn. repeat f_equal. lra.
Qed.

(** C6: reordering the items of the dictionary of distributions changes
    neither the result of [tf_reference] nor that of [tf_compare]. *)
Theorem channel_order_invariance (self : PGProbRatioModel)
    (d : dict Distribution) (b : Batch) (ref : Vector) :
  distributions (base self) ≡ₚ d →
  NoDup (keys (distributions (base self))) →
  tf_reference (with_distributions self d) b = tf_reference self b ∧
  tf_compare (with_distributions self d) ref b = tf_compare self ref b.
Proof.
  intros Hperm Hnd.
  assert (Href : tf_reference (with_distributions self d) b
                 = tf_reference self b).
  { unfold tf_reference. cbn -[sorted keys].
    rewrite <- (sorted_permutation (keys (distributions (base self))) (keys d))
      by (unfold keys; by rewrite Hperm).
    f_equal. apply mapM_ext. intros name.
    by rewrite (getitem_permutation _ _ name Hperm Hnd). }
  split; [exact Href|].
  unfold tf_compare, compare_gain_per_instance, compare_prob_ratio.
  by rewrite !compare_log_prob_reference, Href.
Qed.

Lemma channel_order_invariance_witness :
  tf_reference
    (with_distributions two_channel_model [("b", echo); ("a", echo)])
    two_channel_batch
  = Some [1] ∧
  tf_compare
    (with_distributions two_channel_model [("b", echo); ("a", echo)])
    [0] two_channel_batch
  = tf_compare two_channel_model [0] two_channel_batch.
Proof.
  destruct (channel_order_invariance two_channel_model
              [("b", echo); ("a", echo)] two_channel_batch [0])
    as [Href Hcompare].
  - apply Permutation_swap.
  - cbn. apply NoDup_cons. split.
    + intros [?|?%elem_of_nil]%elem_of_cons; done.
    + apply NoDup_singleton.
  - split; [|exact Hcompare]. rewrite Href. exact two_channel_reference.
Defined.

(** ** Reshaping and concatenation *)

Lemma length_chunks (n c : nat) (l : list R) : length (chunks n c l) = n.
Proof. revert l. induction n as [|n IH]; intros l; cbn; [done|]. by rewrite IH. Qed.

Lemma Forall_chunks (P : R → Prop) (n c : nat) (l : list R) :
  Forall P l → Forall (Forall P) (chunks n c l).
Proof.
  revert l. induction n as [|n IH]; intros l Hl; cbn; [done|].
  constructor; [by apply Forall_take|]. by apply IH, Forall_drop.
Qed.

Lemma chunks_row_length (n c : nat) (l : list R) :
  length l = (n * c)%nat → Forall (λ row, length row = c) (chunks n c l).
Proof.
  revert l. induction n as [|n IH]; intros l Hl; cbn; [done|].
  constructor; [rewrite length_take; lia|].
  apply IH. rewrite length_drop. lia.
Qed.

Lemma chunks_replicate (n c : nat) (x : R) :
  chunks n c (replicate (n * c) x) = replicate n (replicate c x).
Proof.
  induction n as [|n IH]; cbn; [done|].
  by rewrite take_replicate_add, drop_replicate_add, IH.
Qed.

(** What [tf_reshape] returns when it succeeds: the row count times the
    row length is the number of entries. *)
Lemma tf_reshape_Some (t : Tensor) (c : nat) (m : Matrix) :
  tf_reshape t c = Some m →
  c ≠ 0%nat ∧ length (data t) = (length m * c)%nat ∧
  m = chunks (length m) c (data t).
Proof.
  unfold tf_reshape. destruct (decide (c = 0%nat)); [done|].
  destruct (decide _) as [Hmod|]; [|done]. intros [= <-].
  rewrite length_chunks. split; [done|]. split; [|done].
  pose proof (Nat.div_mod (length (data t)) c ltac:(done)). lia.
Qed.

Lemma tf_reshape_rows (t : Tensor) (c : nat) (m : Matrix) :
  tf_reshape t c = Some m → Forall (λ row, length row = c ∧ row ≠ []) m.
Proof.
  intros (Hc & Hlen & ->)%tf_reshape_Some.
  eapply Forall_impl; [by apply chunks_row_length|].
  intros row <-. split; [done|]. by destruct row.
Qed.

(** The ratio tensor of lines 115-116: every entry is 1. *)
Lemma ratio_against_itself (log_prob : Tensor) :
  tf_exp <$> tf_sub log_prob (tf_stop_gradient log_prob)
  = Some (mkTensor (shape log_prob) (replicate (length (data log_prob)) 1)).
Proof.
  unfold tf_sub, tf_stop_gradient, tf_exp. rewrite decide_True by done. cbn.
  by rewrite exp_sub_self.
Qed.

Section concat.
(** A property of rows kept by appending rows. *)
Variable Q : list R → Prop.
Hypothesis Q_app : ∀ r1 r2, Q r1 → Q r2 → Q (r1 ++ r2).

Lemma Forall_zip_with_app (m1 m2 : Matrix) :
  Forall Q m1 → Forall Q m2 → Forall Q (zip_with app m1 m2).
Proof.
  intros H1. revert m2. induction H1 as [|r1 m1 ? ? IH]; intros m2 H2; [done|].
  destruct H2 as [|r2 m2 ? ?]; cbn; [done|]. constructor; auto.
Qed.

Lemma tf_concat_Forall (mats : list Matrix) (cat : Matrix) :
  tf_concat mats = Some cat → Forall (Forall Q) mats → Forall Q cat.
Proof.
  revert cat. induction mats as [|m mats IH]; intros cat; [done|].
  destruct mats as [|m' mats].
  - intros [= <-] Hm. by apply Forall_inv in Hm.
  - cbn -[tf_concat]. change (tf_concat (m :: m' :: mats))
      with (r ← tf_concat (m' :: mats);
            if decide (length m = length r)
            then Some (zip_with app m r) else None).
    destruct (tf_concat (m' :: mats)) as [r|]; [|done]. cbn.
    destruct (decide _); [|done]. intros [= <-] Hall.
    apply Forall_cons in Hall as [Hm Hall].
    apply Forall_zip_with_app; [done|]. by apply IH.
Qed.
End concat.

Lemma tf_concat_cons (m m' : Matrix) (mats : list Matrix) :
  tf_concat (m :: m' :: mats)
  = r ← tf_concat (m' :: mats);
    if decide (length m = length r) then Some (zip_with app m r) else None.
Proof. reflexivity. Qed.

Lemma tf_concat_length (mats : list Matrix) (cat : Matrix) :
  tf_concat mats = Some cat → Forall (λ m, length m = length cat) mats.
Proof.
  revert cat. induction mats as [|m mats IH]; intros cat; [done|].
  destruct mats as [|m' mats].
  - intros [= <-]. by constructor.
  - rewrite tf_concat_cons.
    destruct (tf_concat (m' :: mats)) as [r|]; [|done]. cbn.
    destruct (decide _) as [Hlen|]; [|done]. intros [= <-].
    rewrite length_zip_with, <- Hlen, Nat.min_id.
    constructor; [done|]. rewrite Hlen. by apply IH.
Qed.

Lemma tf_concat_is_Some (n : nat) (mats : list Matrix) :
  mats ≠ [] → Forall (λ m, length m = n) mats →
  ∃ cat, tf_concat mats = Some cat ∧ length cat = n.
Proof.
  induction mats as [|m mats IH]; [done|]. intros _ Hall.
  apply Forall_cons in Hall as [Hm Hall].
  destruct mats as [|m' mats]; [by exists m|].
  destruct (IH ltac:(done) Hall) as (r & Hr & Hlen).
  rewrite tf_concat_cons, Hr. cbn. rewrite decide_True by congruence.
  eexists. split; [done|]. rewrite length_zip_with. lia.
Qed.

(** Row [i] of the concatenation is the rows [i] of the values, one after
    the other. *)
Lemma tf_concat_lookup (mats : list Matrix) (cat : Matrix) (i : nat)
    (row : list R) :
  tf_concat mats = Some cat → cat !! i = Some row →
  row = mjoin ((λ m, default [] (m !! i)) <$> mats).
Proof.
  revert cat row. induction mats as [|m mats IH]; intros cat row; [done|].
  destruct mats as [|m' mats].
  - intros [= <-] Hrow. cbn. by rewrite Hrow, app_nil_r.
  - rewrite tf_concat_cons.
    destruct (tf_concat (m' :: mats)) as [r|] eqn:Hr; [|done]. cbn -[mjoin fmap].
    destruct (decide _) as [Hlen|]; [|done]. intros [= <-].
    rewrite lookup_zip_with.
    destruct (m !! i) as [r1|] eqn:Hr1; [|done]. cbn -[mjoin fmap].
    destruct (r !! i) as [r2|] eqn:Hr2; [|done]. cbn -[mjoin fmap].
    intros [= <-]. rewrite (IH r r2 eq_refl Hr2).
    rewrite (fmap_cons _ m). cbn [mjoin list_join]. by rewrite Hr1.
Qed.

Lemma mean_all_ones (row : list R) :
  row ≠ [] → Forall (eq 1) row → mean row = 1.
Proof.
  intros Hne Hall.
  assert (Heq : row = replicate (length row) 1).
  { clear Hne. induction Hall as [|x row <- _ IH]; [done|].
    cbn. by rewrite <- IH. }
  rewrite Heq. apply mean_ones. by destruct row.
Qed.

(** ** The ratio inside the loss *)

Lemma loss_prob_ratios_ones (self : PGProbRatioModel) (b : Batch)
    (mats : list Matrix) :
  loss_prob_ratios self b = Some mats →
  Forall (Forall (λ row, row ≠ [] ∧ Forall (eq 1) row)) mats.
Proof.
  unfold loss_prob_ratios. intros Hmats%mapM_Some_1.
  eapply Forall2_Forall_r; [exact Hmats|]. apply Forall_true.
  intros [name distribution] mat. cbn.
  destruct (actions b !! name) as [action|]; [|done]. cbn.
  rewrite ratio_against_itself. cbn. intros Hreshape.
  pose proof (tf_reshape_rows _ _ _ Hreshape) as Hrows.
  apply tf_reshape_Some in Hreshape as (_ & _ & Hmat).
  rewrite Hmat in Hrows |- *. cbn in *.
  apply Forall_and. split.
  - eapply Forall_impl; [exact Hrows|]. by intros row [_ ?].
  - apply Forall_chunks, Forall_replicate_eq.
Qed.

Lemma loss_prob_ratio_ones (self : PGProbRatioModel) (b : Batch)
    (ratio : Vector) :
  loss_prob_ratio self b = Some ratio → ratio = replicate (length ratio) 1.
Proof.
  unfold loss_prob_ratio.
  destruct (loss_prob_ratios self b) as [mats|] eqn:Hmats; [|done]. cbn.
  destruct (tf_concat mats) as [cat|] eqn:Hcat; [|done]. intros [= <-].
  apply loss_prob_ratios_ones in Hmats.
  assert (Hrows : Forall (λ row, row ≠ [] ∧ Forall (eq 1) row) cat).
  { eapply tf_concat_Forall; [|exact Hcat|exact Hmats].
    intros r1 r2 [Hne1 H1] [_ H2]. split.
    - by destruct r1.
    - by apply Forall_app. }
  unfold tf_reduce_mean_axis1. rewrite length_fmap.
  clear Hcat. induction Hrows as [|row cat [Hne Hrow] _ IH]; [done|].
  cbn. by rewrite <- IH, mean_all_ones.
Qed.

Lemma loss_prob_ratios_is_Some (self : PGProbRatioModel) (b : Batch) (n : nat) :
  batch_ok self b n →
  ∃ mats, loss_prob_ratios self b = Some mats ∧
          mats ≠ [] ∧ Forall (λ m, length m = n) mats.
Proof.
  intros (Hne & Hall & _). unfold loss_prob_ratios.
  induction Hall as [|[name distribution] ds Hitem Hall IH]; [done|].
  destruct Hitem as (action & s & Haction & Hshape & Hsize & Hdata).
  cbn in Haction, Hshape, Hdata.
  assert (Hhead : ∃ m,
    (action ← actions b !! name;
     prob_ratio ←
       tf_exp <$> tf_sub
         (log_probability distribution
            (parameterize distribution
               (apply (network (base self)) (states b) (internals b)
                  (update b))) action)
         (tf_stop_gradient
            (log_probability distribution
               (parameterize distribution
                  (apply (network (base self)) (states b) (internals b)
                     (update b))) action));
     tf_reshape prob_ratio (util_prod (tail (util_shape prob_ratio))))
    = Some m ∧ length m = n).
  { rewrite Haction. cbn. rewrite ratio_against_itself. cbn.
    rewrite Hshape, Hdata. cbn [tail]. unfold tf_reshape. cbn [data].
    rewrite length_replicate, decide_False by done.
    rewrite decide_True by (by apply Nat.Div0.mod_mul).
    rewrite Nat.div_mul by done.
    eexists. split; [done|]. apply length_chunks. }
  destruct Hhead as (m & Hm & Hlen).
  destruct ds as [|item ds].
  - exists [m]. rewrite mapM_Some. split; [|split; [done|by constructor]].
    constructor; [exact Hm|constructor].
  - destruct (IH ltac:(done)) as (mats & Hmats & _ & Hlens).
    exists (m :: mats). rewrite mapM_Some in Hmats |- *.
    split; [|split; [done|by constructor]].
    constructor; [exact Hm|exact Hmats].
Qed.

Lemma loss_prob_ratio_is_Some (self : PGProbRatioModel) (b : Batch) (n : nat) :
  batch_ok self b n → loss_prob_ratio self b = Some (replicate n 1).
Proof.
  intros Hok.
  destruct (loss_prob_ratios_is_Some self b n Hok) as (mats & Hmats & Hne & Hlens).
  destruct (tf_concat_is_Some n mats Hne Hlens) as (cat & Hcat & Hlen).
  assert (Hratio : loss_prob_ratio self b = Some (tf_reduce_mean_axis1 cat)).
  { unfold loss_prob_ratio. rewrite Hmats. cbn. by rewrite Hcat. }
  rewrite Hratio. f_equal.
  rewrite (loss_prob_ratio_ones self b _ Hratio).
  unfold tf_reduce_mean_axis1. by rewrite length_fmap, Hlen.
Qed.

(** C5: on every evaluation of [tf_loss_per_instance] the ratio is 1 in
    every entry of every channel and for every instance, whatever the
    reward; so with no clip threshold the loss of each instance is the
    negated reward. *)
Theorem loss_ratio_is_one (self : PGProbRatioModel) (b : Batch) :
  (∀ mats, loss_prob_ratios self b = Some mats →
     Forall (Forall (Forall (eq 1))) mats) ∧
  (∀ ratio, loss_prob_ratio self b = Some ratio → Forall (eq 1) ratio) ∧
  (∀ n, batch_ok self b n →
     loss_prob_ratio self b = Some (replicate n 1) ∧
     (likelihood_ratio_clipping self = None →
      tf_loss_per_instance self b = Some (Ropp <$> reward b))).
Proof.
  split; [|split].
  - intros mats Hmats%loss_prob_ratios_ones.
    eapply Forall_impl; [exact Hmats|]. intros m Hm.
    eapply Forall_impl; [exact Hm|]. by intros row [_ ?].
  - intros ratio Hratio%loss_prob_ratio_ones. rewrite Hratio.
    apply Forall_replicate_eq.
  - intros n Hok. pose proof (loss_prob_ratio_is_Some self b n Hok) as Hratio.
    split; [exact Hratio|]. intros Hnone.
    destruct Hok as (_ & _ & Hreward).
    rewrite (loss_per_instance_same self b (replicate n 1))
      by first [by rewrite Hnone | done | by rewrite length_replicate].
    rewrite Hnone. f_equal. cbn. subst n. clear.
    induction (reward b) as [|w l IH]; [done|].
    cbn. rewrite IH. f_equal. lra.
Qed.

Lemma two_channel_batch_ok : batch_ok two_channel_model two_channel_batch 1.
Proof.
  split; [done|]. split; [|done].
  repeat constructor.
  - exists (mkTensor [1%nat; 2%nat] [0; 0]), [2%nat]. by repeat split.
  - exists (mkTensor [1%nat] [3]), []. by repeat split.
Qed.

Lemma loss_ratio_is_one_witness :
  loss_prob_ratio two_channel_model two_channel_batch = Some [1] ∧
  tf_loss_per_instance two_channel_model two_channel_batch = Some [-1].
Proof.
  destruct (loss_ratio_is_one two_channel_model two_channel_batch)
    as (_ & _ & H).
  destruct (H 1%nat two_channel_batch_ok) as [Hratio Hloss].
  split; [exact Hratio|]. exact (Hloss eq_refl).
Defined.

(** ** How the channels are combined *)

Lemma two_channel_prob_ratios :
  loss_prob_ratios two_channel_model two_channel_batch
  = Some [[[1; 1]]; [[1]]].
Proof.
  unfold loss_prob_ratios. run.
  replace (0 - 0) with 0 by lra. replace (3 - 3) with 0 by lra.
  by rewrite exp_0.
Qed.

(** C8 (as the code has it): for a batch of [n] instances that fits the
    model, the ratio of each channel is reshaped to [n] rows of
    collapsed-size entries, the rows of the channels are put one after the
    other, and the combined ratio of an instance is the mean over all these
    entries: one ratio per instance, every entry with the same weight. *)
Theorem loss_ratio_combination (self : PGProbRatioModel) (b : Batch) (n : nat) :
  batch_ok self b n →
  ∃ mats cat,
    loss_prob_ratios self b = Some mats ∧
    tf_concat mats = Some cat ∧
    loss_prob_ratio self b = Some (mean <$> cat) ∧
    length (mean <$> cat) = n ∧
    Forall2
      (λ item m, ∃ action,
         actions b !! item.1 = Some action ∧
         length m = n ∧
         Forall (λ row,
             length row
             = util_prod (tail (util_shape
                 (log_probability item.2
                    (parameterize item.2
                       (apply (network (base self))
                          (states b) (internals b) (update b)))
                    action))))
           m)
      (distributions (base self)) mats ∧
    ∀ i row, cat !! i = Some row →
      row = mjoin ((λ m, default [] (m !! i)) <$> mats).
Proof.
  intros Hok.
  destruct (loss_prob_ratios_is_Some self b n Hok)
    as (mats & Hmats & Hne & Hlens).
  destruct (tf_concat_is_Some n mats Hne Hlens) as (cat & Hcat & Hlen).
  exists mats, cat. split; [exact Hmats|]. split; [exact Hcat|].
  split; [unfold loss_prob_ratio; rewrite Hmats; cbn; by rewrite Hcat|].
  split; [by rewrite length_fmap|].
  split; [|intros i row; by apply tf_concat_lookup].
  unfold loss_prob_ratios in Hmats. apply mapM_Some_1 in Hmats.
  clear Hcat Hne. induction Hmats as [|[name d] m ds mats Hm _ IH];
    [constructor|].
  apply Forall_cons in Hlens as [Hlen_m Hlens].
  constructor; [|by apply IH]. cbn in Hm |- *.
  destruct (actions b !! name) as [action|]; [|done]. cbn in Hm.
  rewrite ratio_against_itself in Hm. cbn in Hm.
  exists action. split; [done|]. split; [done|].
  eapply Forall_impl; [exact (tf_reshape_rows _ _ _ Hm)|].
  by intros row [? _].
Qed.

Lemma loss_ratio_combination_witness :
  ∃ mats cat,
    loss_prob_ratios two_channel_model two_channel_batch = Some mats ∧
    tf_concat mats = Some cat ∧
    loss_prob_ratio two_channel_model two_channel_batch
      = Some (mean <$> cat) ∧
    length (mean <$> cat) = 1%nat.
Proof.
  destruct (loss_ratio_combination two_channel_model two_channel_batch 1
              two_channel_batch_ok)
    as (mats & cat & H1 & H2 & H3 & H4 & _).
  by exists mats, cat.
Defined.

(** C8 as stated fails.  The channel "a", whose actions have shape (2,),
    keeps two ratios for the one instance after the reshape, not one; and
    the mean over the concatenated rows weighs entries, not channels: on
    rows [0; 0] and [3] it gives 1, where the same weight for each of the
    two channels would give 3/2. *)
Lemma loss_ratio_combination_not_as_stated :
  loss_prob_ratios two_channel_model two_channel_batch
    = Some [[[1; 1]]; [[1]]] ∧
  ¬ Forall (Forall (λ row, length row = 1%nat))
      ([[[1; 1]]; [[1]]] : list Matrix) ∧
  tf_reduce_mean_axis1 <$> tf_concat [[[0; 0]]; [[3]]] = Some [1] ∧
  equal_weight_mean [[0; 0]; [3]] ≠ 1.
Proof.
  split; [exact two_channel_prob_ratios|]. split; [|split].
  - intros H. apply Forall_cons in H as [H _].
    apply Forall_cons in H as [H _]. discriminate H.
  - run. unfold mean. cbn. repeat f_equal. lra.
  - unfold equal_weight_mean, mean. cbn. lra.
Qed.

(** ** Failures *)

Lemma getitem_of_key {V} (d : dict V) (name : string) :
  name ∈ keys d → ∃ v, getitem d name = Some v ∧ (name, v) ∈ d.
Proof.
  unfold keys. induction d as [|[k w] d IH]; cbn.
  - by intros ?%elem_of_nil.
  - intros Hin. destruct (decide (k = name)) as [->|Hne].
    + exists w. split; [done|]. by left.
    + apply elem_of_cons in Hin as [->|Hin]; [done|].
      destruct (IH Hin) as (v & Hv & Hel). exists v. split; [done|]. by right.
Qed.

Lemma elem_of_sorted (names : list string) (name : string) :
  name ∈ sorted names ↔ name ∈ names.
Proof. unfold sorted. by rewrite merge_sort_Permutation. Qed.

(** X1: when a channel of the model has no action in the batch, the
    lookup [actions[name]] raises, and with it the loss, the reference and
    the comparison. *)
Theorem missing_action_fails (self : PGProbRatioModel) (b : Batch)
    (name : string) (ref : Vector) :
  name ∈ keys (distributions (base self)) →
  actions b !! name = None →
  tf_loss_per_instance self b = None ∧
  tf_reference self b = None ∧
  tf_compare self ref b = None.
Proof.
  intros Hkey Hmissing.
  assert (Href : tf_reference self b = None).
  { unfold tf_reference.
    match goal with
    | |- mapM ?f ?l ≫= _ = None => assert (mapM f l = None) as ->; [|done]
    end.
    apply mapM_None, Exists_exists. exists name.
    split; [by apply elem_of_sorted|].
    destruct (getitem _ name); cbn; [|done]. by rewrite Hmissing. }
  split; [|split; [exact Href|]].
  - unfold tf_loss_per_instance, loss_prob_ratio, loss_prob_ratios.
    match goal with
    | |- (mapM ?f ?l ≫= _) ≫= _ = None =>
        assert (mapM f l = None) as ->; [|done]
    end.
    apply mapM_None, Exists_exists.
    unfold keys in Hkey. apply list_elem_of_fmap in Hkey as ([k d] & -> & Hin).
    exists (k, d). split; [done|]. cbn in *. by rewrite Hmissing.
  - unfold tf_compare, compare_gain_per_instance, compare_prob_ratio.
    by rewrite compare_log_prob_reference, Href.
Qed.

Lemma missing_action_fails_witness :
  tf_loss_per_instance scenario_model (example_batch ∅ [1; -1]) = None ∧
  tf_reference scenario_model (example_batch ∅ [1; -1]) = None ∧
  tf_compare scenario_model [0; 0] (example_batch ∅ [1; -1]) = None.
Proof.
  apply (missing_action_fails scenario_model (example_batch ∅ [1; -1]) "a").
  - cbn. apply list_elem_of_singleton. reflexivity.
  - reflexivity.
Defined.

(** X2: when two channels give ratios for different numbers of instances,
    the concatenation raises and so does the loss. *)
Theorem uneven_channels_fail (self : PGProbRatioModel) (b : Batch)
    (mats : list Matrix) (m1 m2 : Matrix) :
  loss_prob_ratios self b = Some mats →
  m1 ∈ mats → m2 ∈ mats → length m1 ≠ length m2 →
  tf_loss_per_instance self b = None.
Proof.
  intros Hmats H1 H2 Hne.
  unfold tf_loss_per_instance, loss_prob_ratio. rewrite Hmats. cbn.
  destruct (tf_concat mats) as [cat|] eqn:Hcat; [|done].
  apply tf_concat_length in Hcat. rewrite Forall_forall in Hcat.
  destruct Hne. by rewrite (Hcat m1 H1), (Hcat m2 H2).
Qed.

Lemma uneven_channels_fail_witness :
  tf_loss_per_instance
    (example_model [("a", echo); ("b", echo)] [] None)
    (example_batch
       {["a" := mkTensor [1%nat] [0]; "b" := mkTensor [2%nat] [0; 0]]} [1])
  = None.
Proof.
  apply (uneven_channels_fail _ _ [[[1]]; [[1]; [1]]] [[1]] [[1]; [1]]).
  - unfold loss_prob_ratios. run.
    replace (0 - 0) with 0 by lra. by rewrite exp_0.
  - apply elem_of_cons. by left.
  - apply elem_of_cons. right. apply elem_of_cons. by left.
  - cbn. lia.
Defined.

(** ** Batches that fit the model *)

Lemma tf_reshape_fits (t : Tensor) (n : nat) (s : list nat) :
  shape t = n :: s → util_prod s ≠ 0%nat →
  length (data t) = (n * util_prod s)%nat →
  ∃ m, tf_reshape t (util_prod (tail (util_shape t))) = Some m ∧ length m = n.
Proof.
  intros Hshape Hsize Hdata. unfold util_shape. rewrite Hshape. cbn [tail].
  unfold tf_reshape. rewrite Hdata, decide_False by done.
  rewrite decide_True by (by apply Nat.Div0.mod_mul).
  rewrite Nat.div_mul by done.
  eexists. split; [done|]. apply length_chunks.
Qed.

Lemma reference_is_Some (self : PGProbRatioModel) (b : Batch) (n : nat) :
  batch_ok self b n → ∃ ref, tf_reference self b = Some ref ∧ length ref = n.
Proof.
  intros (Hne & Hall & _). unfold tf_reference.
  match goal with
  | |- ∃ ref, mapM ?f ?l ≫= _ = _ ∧ _ =>
      assert (Hmats : ∃ mats, mapM f l = Some mats ∧ mats ≠ [] ∧
                              Forall (λ m, length m = n) mats)
  end.
  { assert (Hnames : Forall (λ name, name ∈ keys (distributions (base self)))
                       (sorted (keys (distributions (base self))))).
    { apply Forall_forall. intros name. by rewrite elem_of_sorted. }
    assert (Hsorted : sorted (keys (distributions (base self))) ≠ []).
    { intros Hnil. apply Hne.
      apply (f_equal length) in Hnil. unfold sorted, keys in Hnil.
      rewrite merge_sort_Permutation, length_fmap in Hnil.
      by destruct (distributions (base self)). }
    induction Hnames as [|name names Hname _ IH]; [done|].
    destruct (getitem_of_key _ name Hname) as (d & Hd & Hin).
    rewrite Forall_forall in Hall.
    destruct (Hall _ Hin) as (action & s & Haction & Hshape & Hsize & Hdata).
    cbn in Haction, Hshape, Hdata.
    destruct (tf_reshape_fits _ n s Hshape Hsize Hdata) as (m & Hm & Hlen).
    destruct names as [|name' names].
    - exists [m]. split; [|split; [done|by constructor]].
      apply mapM_Some. constructor; [|constructor].
      rewrite Hd. cbn. rewrite Haction. cbn. exact Hm.
    - destruct (IH ltac:(done)) as (mats & Hmats & _ & Hlens).
      exists (m :: mats). split; [|split; [done|by constructor]].
      apply mapM_Some. apply mapM_Some in Hmats. constructor; [|exact Hmats].
      rewrite Hd. cbn. rewrite Haction. cbn. exact Hm. }
  destruct Hmats as (mats & -> & Hne' & Hlens). cbn.
  destruct (tf_concat_is_Some n mats Hne' Hlens) as (cat & -> & Hlen). cbn.
  eexists. split; [done|]. unfold tf_reduce_mean_axis1. by rewrite length_fmap.
Qed.

(** X3: for a batch of [n] instances that fits the model, [tf_reference]
    returns one value per instance, and [tf_compare] called with a reference
    of that length, one estimated reward per instance and a clip threshold
    that is absent or positive returns a gain. *)
Theorem reference_and_compare_return (self : PGProbRatioModel) (b : Batch)
    (n : nat) :
  batch_ok self b n →
  (∃ ref, tf_reference self b = Some ref ∧ length ref = n) ∧
  (∀ ref, length ref = n → length (compare_reward self b) = n →
     (∀ eps, likelihood_ratio_clipping self = Some eps → 0 < eps) →
     ∃ gain, tf_compare self ref b = Some gain).
Proof.
  intros Hok. pose proof (reference_is_Some self b n Hok) as Href.
  split; [exact Href|]. intros ref Hlen Hreward Hpos.
  destruct Href as (lp & Hlp & Hlplen).
  unfold tf_compare, compare_gain_per_instance, compare_prob_ratio.
  rewrite compare_log_prob_reference, Hlp. cbn -[gain_per_instance].
  rewrite tf_broadcast_same by congruence. cbn -[gain_per_instance].
  rewrite gain_per_instance_same
    by first [ bounds_defined
             | unfold tf_exp1; rewrite length_fmap, length_zip_with; lia ].
  cbn. destruct (bool_decide _); eauto.
Qed.

Lemma reference_and_compare_return_witness :
  (∃ ref, tf_reference two_channel_model two_channel_batch = Some ref ∧
          length ref = 1%nat) ∧
  ∃ gain, tf_compare two_channel_model [0] two_channel_batch = Some gain.
Proof.
  destruct (reference_and_compare_return two_channel_model two_channel_batch 1
              two_channel_batch_ok) as [Href Hcompare].
  split; [exact Href|]. apply Hcompare; [done | done | by intros ? [=]].
Defined.

(** ** The value at the reference point *)

Lemma clip_one (eps : R) : 0 < eps → clip (1 / (1 + eps)) (1 + eps) 1 = 1.
Proof.
  intros H.
  assert (H1 : 0 < / (1 + eps)) by (apply Rinv_0_lt_compat; lra).
  assert (H2 : / (1 + eps) * (1 + eps) = 1) by (field; lra).
  unfold clip, Rmax, Rmin, Rdiv.
  repeat destruct (Rle_dec _ _); nra.
Qed.

Lemma gain_of_one (clipping : option R) (w : R) :
  (∀ eps, clipping = Some eps → 0 < eps) → gain_of clipping 1 w = w.
Proof.
  intros Hpos. destruct clipping as [eps|]; cbn -[clip]; [|lra].
  rewrite clip_one by (by apply Hpos).
  unfold Rmin. destruct (Rle_dec _ _); lra.
Qed.

Lemma zip_with_gain_ones (clipping : option R) (reward : Vector) :
  (∀ eps, clipping = Some eps → 0 < eps) →
  zip_with (gain_of clipping) (replicate (length reward) 1) reward = reward.
Proof.
  intros Hpos. induction reward as [|w reward IH]; [done|].
  cbn -[gain_of]. by rewrite IH, gain_of_one.
Qed.

(** X4: with a valid clip threshold or none, the loss of every instance of
    a batch that fits the model is the negated reward: the value of the loss
    does not depend on the policy. *)
Theorem loss_is_negated_reward (self : PGProbRatioModel) (b : Batch) (n : nat) :
  batch_ok self b n →
  (∀ eps, likelihood_ratio_clipping self = Some eps → 0 < eps) →
  tf_loss_per_instance self b = Some (Ropp <$> reward b).
Proof.
  intros Hok Hpos.
  pose proof (loss_prob_ratio_is_Some self b n Hok) as Hratio.
  destruct Hok as (_ & _ & Hreward).
  rewrite (loss_per_instance_same self b (replicate n 1))
    by first [bounds_defined | done | by rewrite length_replicate].
  f_equal. rewrite <- zip_with_opp. f_equal. subst n.
  by apply zip_with_gain_ones.
Qed.

Lemma loss_is_negated_reward_witness :
  tf_loss_per_instance
    (example_model [("a", echo); ("b", echo)] [] (Some (1 / 5)))
    two_channel_batch
  = Some [-1].
Proof.
  apply (loss_is_negated_reward
           (example_model [("a", echo); ("b", echo)] [] (Some (1 / 5)))
           two_channel_batch 1).
  - exact two_channel_batch_ok.
  - intros eps [= <-]. lra.
Defined.

(** X5: when the reference computed for a batch is compared against the
    same model and batch, the gain is the mean of the estimated rewards, less
    the sum of the regularisation losses if there are any, whether or not
    the ratio is clipped. *)
Theorem compare_at_reference (self : PGProbRatioModel) (b : Batch)
    (ref : Vector) :
  tf_reference self b = Some ref →
  length (compare_reward self b) = length ref →
  (∀ eps, likelihood_ratio_clipping self = Some eps → 0 < eps) →
  tf_compare self ref b
  = Some (match fn_regularization_losses (base self)
                  (states b) (internals b) (update b) with
          | [] => mean (compare_reward self b)
          | losses => mean (compare_reward self b) - sum (values losses)
          end).
Proof.
  intros Href Hlen Hpos.
  unfold tf_compare, compare_gain_per_instance, compare_prob_ratio.
  rewrite compare_log_prob_reference, Href. cbn -[gain_per_instance].
  rewrite tf_broadcast_same by done. cbn -[gain_per_instance].
  unfold tf_exp1. rewrite exp_sub_self.
  rewrite gain_per_instance_same
    by first [bounds_defined | by rewrite length_replicate].
  rewrite <- Hlen, zip_with_gain_ones by done. cbn.
  destruct (fn_regularization_losses _ _ _ _) as [|loss losses]; cbn.
  - by rewrite bool_decide_eq_false_2 by lia.
  - by rewrite bool_decide_eq_true_2 by lia.
Qed.

Lemma compare_at_reference_witness :
  tf_compare scenario_model [ln (3 / 2); ln (1 / 2)] scenario_batch
  = Some (mean [1; -1]).
Proof.
  apply (compare_at_reference scenario_model scenario_batch
           [ln (3 / 2); ln (1 / 2)]).
  - exact scenario_log_prob.
  - reflexivity.
  - intros eps [= <-]. lra.
Defined.

(** ** Bounds on the gain *)

Lemma clip_bounds (eps : R) :
  0 < eps → 0 < 1 / (1 + eps) ∧ 1 / (1 + eps) < 1 ∧ 1 < 1 + eps.
Proof.
  intros H.
  assert (H1 : 0 < / (1 + eps)) by (apply Rinv_0_lt_compat; lra).
  assert (H2 : / (1 + eps) * (1 + eps) = 1) by (field; lra).
  unfold Rdiv. repeat split; nra.
Qed.

(** With a negative reward the clipped gain is the ratio floored from below,
    times the reward. *)
Lemma clipped_gain_floored (lo hi r w : R) :
  lo <= hi → w < 0 →
  Rmin (r * w) (clip lo hi r * w) = Rmax r lo * w.
Proof.
  intros Hlh Hw. unfold clip, Rmax, Rmin.
  repeat destruct (Rle_dec _ _); nra.
Qed.

Lemma gain_of_mono (e1 e2 r w : R) :
  0 < e1 → e1 <= e2 → gain_of (Some e1) r w <= gain_of (Some e2) r w.
Proof.
  intros H1 H12. cbn -[clip].
  destruct (Rtotal_order w 0) as [Hw|[->|Hw]].
  - pose proof (clip_bounds e1 H1) as (? & ? & ?).
    pose proof (clip_bounds e2 ltac:(lra)) as (? & ? & ?).
    assert (1 / (1 + e2) <= 1 / (1 + e1)).
    { unfold Rdiv. rewrite !Rmult_1_l. apply Rinv_le_contravar; lra. }
    rewrite !clipped_gain_floored by lra.
    unfold Rmax. repeat destruct (Rle_dec _ _); nra.
  - rewrite !Rmult_0_r. unfold Rmin. destruct (Rle_dec _ _); lra.
  - by apply clipped_gain_mono.
Qed.

Lemma gain_of_clipped_le (eps r w : R) :
  gain_of (Some eps) r w <= gain_of None r w.
Proof. cbn -[clip]. apply Rmin_l. Qed.

Lemma sum_le (l1 l2 : list R) : Forall2 Rle l1 l2 → sum l1 <= sum l2.
Proof.
  induction 1 as [|x y l1 l2 Hxy _ IH]; [cbn; lra|].
  change (x + sum l1 <= y + sum l2). lra.
Qed.

Lemma mean_le (l1 l2 : list R) : Forall2 Rle l1 l2 → mean l1 <= mean l2.
Proof.
  intros Hle. unfold mean. rewrite <- (Forall2_length _ _ _ Hle).
  pose proof (sum_le _ _ Hle) as Hsum.
  destruct l1 as [|x l1].
  - apply Forall2_nil_inv_l in Hle as ->. cbn. lra.
  - assert (0 < INR (length (x :: l1))) by (apply lt_0_INR; cbn; lia).
    unfold Rdiv. apply Rmult_le_compat_r; [|done].
    apply Rlt_le. by apply Rinv_0_lt_compat.
Qed.

Lemma Forall2_zip_with_same (f g : R → R → R) (x y : Vector) :
  (∀ r w, f r w <= g r w) →
  Forall2 Rle (zip_with f x y) (zip_with g x y).
Proof.
  intros Hfg. revert y. induction x as [|r x IH]; intros [|w y]; cbn;
    constructor; auto.
Qed.

(** X6: for ratios and rewards of one length, rewards of any sign, every
    instance's clipped gain and the batch mean of the gains do not decrease
    when the clip threshold grows. *)
Theorem gain_monotone_in_threshold (eps1 eps2 : R)
    (prob_ratio reward : Vector) :
  0 < eps1 → eps1 <= eps2 →
  length prob_ratio = length reward →
  ∃ gains1 gains2,
    gain_per_instance (Some eps1) prob_ratio reward = Some gains1 ∧
    gain_per_instance (Some eps2) prob_ratio reward = Some gains2 ∧
    Forall2 Rle gains1 gains2 ∧
    tf_reduce_mean_axis0 gains1 <= tf_reduce_mean_axis0 gains2.
Proof.
  intros H1 H12 Hlen.
  eexists _, _.
  split; [apply gain_per_instance_same; [bounds_defined|done]|].
  split; [apply gain_per_instance_same; [bounds_defined|done]|].
  assert (Hle : Forall2 Rle (zip_with (gain_of (Some eps1)) prob_ratio reward)
                            (zip_with (gain_of (Some eps2)) prob_ratio reward)).
  { apply Forall2_zip_with_same. intros r w. by apply gain_of_mono. }
  split; [exact Hle|]. by apply mean_le.
Qed.

Lemma gain_monotone_in_threshold_witness :
  ∃ gains1 gains2,
    gain_per_instance (Some (1 / 5)) [3 / 2; 1 / 2] [1; -1] = Some gains1 ∧
    gain_per_instance (Some (1 / 2)) [3 / 2; 1 / 2] [1; -1] = Some gains2 ∧
    Forall2 Rle gains1 gains2 ∧
    tf_reduce_mean_axis0 gains1 <= tf_reduce_mean_axis0 gains2.
Proof.
  apply (gain_monotone_in_threshold (1 / 5) (1 / 2) [3 / 2; 1 / 2] [1; -1]);
    [lra | lra | reflexivity].
Defined.

(** X7: clipping is pessimistic: with a positive clip threshold each
    instance's clipped gain, and the batch mean of the gains, is at most the
    one computed without a clip threshold. *)
Theorem clipping_never_raises_gain (eps : R) (prob_ratio reward : Vector) :
  0 < eps →
  length prob_ratio = length reward →
  ∃ clipped unclipped,
    gain_per_instance (Some eps) prob_ratio reward = Some clipped ∧
    gain_per_instance None prob_ratio reward = Some unclipped ∧
    Forall2 Rle clipped unclipped ∧
    tf_reduce_mean_axis0 clipped <= tf_reduce_mean_axis0 unclipped.
Proof.
  intros Hpos Hlen.
  eexists _, _.
  split; [apply gain_per_instance_same; [bounds_defined|done]|].
  split; [apply gain_per_instance_same; [bounds_defined|done]|].
  assert (Hle : Forall2 Rle (zip_with (gain_of (Some eps)) prob_ratio reward)
                            (zip_with (gain_of None) prob_ratio reward)).
  { apply Forall2_zip_with_same. intros r w. apply gain_of_clipped_le. }
  split; [exact Hle|]. by apply mean_le.
Qed.

Lemma clipping_never_raises_gain_witness :
  ∃ clipped unclipped,
    gain_per_instance (Some (1 / 5)) [3 / 2; 1 / 2] [1; -1] = Some clipped ∧
    gain_per_instance None [3 / 2; 1 / 2] [1; -1] = Some unclipped ∧
    Forall2 Rle clipped unclipped ∧
    tf_reduce_mean_axis0 clipped <= tf_reduce_mean_axis0 unclipped.
Proof.
  apply (clipping_never_raises_gain (1 / 5) [3 / 2; 1 / 2] [1; -1]);
    [lra | reflexivity].
Defined.

(** X8: with a positive clip threshold the gain of an instance is bounded
    whatever its ratio: by [(1 + eps) * reward] when the reward is not
    negative, by [reward / (1 + eps)] when it is not positive. *)
Theorem clipped_gain_bounded (eps : R) (prob_ratio reward : Vector) :
  0 < eps →
  length prob_ratio = length reward →
  ∃ gains,
    gain_per_instance (Some eps) prob_ratio reward = Some gains ∧
    length gains = length reward ∧
    ∀ i gain_i reward_i,
      gains !! i = Some gain_i → reward !! i = Some reward_i →
      (0 <= reward_i → gain_i <= (1 + eps) * reward_i) ∧
      (reward_i <= 0 → gain_i <= reward_i / (1 + eps)).
Proof.
  intros Hpos Hlen.
  eexists. split; [apply gain_per_instance_same; [bounds_defined|done]|].
  split; [rewrite length_zip_with; lia|].
  intros i g w Hg Hw. rewrite lookup_zip_with, Hw in Hg.
  destruct (prob_ratio !! i) as [r|]; [|done]. cbn -[clip] in Hg.
  injection Hg as <-.
  pose proof (clip_bounds eps Hpos) as (Hlo & Hlo1 & Hhi).
  split; intros Hsign.
  - destruct (Rle_lt_or_eq_dec _ _ Hsign) as [Hw0| <-].
    + rewrite clipped_gain_capped by lra.
      unfold Rmin. destruct (Rle_dec _ _); nra.
    + rewrite !Rmult_0_r. unfold Rmin. destruct (Rle_dec _ _); lra.
  - destruct (Rle_lt_or_eq_dec _ _ Hsign) as [Hw0| ->].
    + rewrite clipped_gain_floored by lra.
      replace (w / (1 + eps)) with (1 / (1 + eps) * w) by (field; lra).
      unfold Rmax. destruct (Rle_dec _ _); nra.
    + rewrite !Rmult_0_r. unfold Rdiv. rewrite Rmult_0_l.
      unfold Rmin. destruct (Rle_dec _ _); lra.
Qed.

Lemma clipped_gain_bounded_witness :
  ∃ gains,
    gain_per_instance (Some (1 / 5)) [3 / 2; 1 / 2] [1; -1] = Some gains ∧
    length gains = 2%nat ∧
    ∀ i gain_i reward_i,
      gains !! i = Some gain_i → [1; -1] !! i = Some reward_i →
      (0 <= reward_i → gain_i <= (1 + 1 / 5) * reward_i) ∧
      (reward_i <= 0 → gain_i <= reward_i / (1 + 1 / 5)).
Proof.
  apply (clipped_gain_bounded (1 / 5) [3 / 2; 1 / 2] [1; -1]);
    [lra | reflexivity].
Defined.

(** X9: in [tf_compare] every ratio is positive, so with a valid clip
    threshold or none the gain of an instance has the sign of its estimated
    reward. *)
Theorem compare_gain_sign (self : PGProbRatioModel) (ref : Vector)
    (b : Batch) (ratio : Vector) :
  compare_prob_ratio self ref b = Some ratio →
  length (compare_reward self b) = length ratio →
  (∀ eps, likelihood_ratio_clipping self = Some eps → 0 < eps) →
  Forall (λ r, 0 < r) ratio ∧
  ∃ gains,
    compare_gain_per_instance self ref b = Some gains ∧
    ∀ i gain_i reward_i,
      gains !! i = Some gain_i →
      compare_reward self b !! i = Some reward_i →
      (0 < reward_i → 0 < gain_i) ∧
      (reward_i < 0 → gain_i < 0) ∧
      (reward_i = 0 → gain_i = 0).
Proof.
  intros Hratio Hlen Hvalid.
  assert (Hpos : Forall (λ r, 0 < r) ratio).
  { unfold compare_prob_ratio in Hratio.
    destruct (compare_log_prob self b) as [lp|]; [|done]. cbn in Hratio.
    destruct (tf_broadcast Rminus lp ref) as [diff|]; [|done].
    injection Hratio as <-. unfold tf_exp1. apply Forall_fmap, Forall_true.
    intros x. apply exp_pos. }
  split; [exact Hpos|].
  unfold compare_gain_per_instance. rewrite Hratio. cbn -[gain_per_instance].
  eexists. split; [apply gain_per_instance_same; [bounds_defined|done]|].
  intros i g w Hg Hw. rewrite lookup_zip_with, Hw in Hg.
  destruct (ratio !! i) as [r|] eqn:Hr; [|done]. cbn -[gain_of] in Hg.
  injection Hg as <-.
  assert (0 < r) by (by eapply Forall_lookup_1 in Hpos).
  destruct (likelihood_ratio_clipping self) as [eps|]; cbn -[clip].
  - pose proof (clip_bounds eps (Hvalid eps eq_refl)) as (Hlo & _ & _).
    assert (0 < clip (1 / (1 + eps)) (1 + eps) r).
    { unfold clip. eapply Rlt_le_trans; [exact Hlo|]. apply Rmax_r. }
    unfold Rmin. destruct (Rle_dec _ _); repeat split; intros; nra.
  - repeat split; intros; nra.
Qed.

Lemma compare_gain_sign_witness :
  Forall (λ r, 0 < r) [3 / 2; 1 / 2] ∧
  ∃ gains,
    compare_gain_per_instance scenario_model [0; 0] scenario_batch
      = Some gains ∧
    ∀ i gain_i reward_i,
      gains !! i = Some gain_i →
      compare_reward scenario_model scenario_batch !! i = Some reward_i →
      (0 < reward_i → 0 < gain_i) ∧
      (reward_i < 0 → gain_i < 0) ∧
      (reward_i = 0 → gain_i = 0).
Proof.
  apply (compare_gain_sign scenario_model [0; 0] scenario_batch
           [3 / 2; 1 / 2]).
  - exact scenario_prob_ratio.
  - reflexivity.
  - intros eps [= <-]. lra.
Defined.

(** ** One channel with scalar actions *)

Lemma chunks_singletons (l : list R) :
  chunks (length l) 1 l = (λ x, [x]) <$> l.
Proof.
  induction l as [|x l IH]; [done|].
  change ([x] :: chunks (length l) 1 l = [x] :: ((λ x, [x]) <$> l)).
  by rewrite IH.
Qed.

Lemma mean_singletons (l : list R) : mean <$> ((λ x, [x]) <$> l) = l.
Proof.
  induction l as [|x l IH]; [done|]. cbn. rewrite IH. f_equal.
  unfold mean. cbn. lra.
Qed.

(** X10: for a model with a single action channel whose log-probability
    has one entry per instance, [tf_reference] returns these
    log-probabilities as they are. *)
Theorem single_scalar_channel_reference (self : PGProbRatioModel) (b : Batch)
    (name : string) (distribution : Distribution) (action : Tensor) :
  distributions (base self) = [(name, distribution)] →
  actions b !! name = Some action →
  let log_prob :=
    log_probability distribution
      (parameterize distribution
         (apply (network (base self)) (states b) (internals b) (update b)))
      action in
  shape log_prob = [length (data log_prob)] →
  tf_reference self b = Some (data log_prob).
Proof.
  intros Hd Haction log_prob Hshape. unfold tf_reference. rewrite Hd.
  cbn. rewrite decide_True by done. cbn. rewrite Haction. cbn.
  fold log_prob. unfold util_shape. rewrite Hshape. cbn.
  unfold tf_reshape. rewrite decide_False by done.
  rewrite Nat.mod_1_r, decide_True by done. rewrite Nat.div_1_r. cbn.
  unfold tf_reduce_mean_axis1.
  by rewrite chunks_singletons, mean_singletons.
Qed.

Lemma single_scalar_channel_reference_witness :
  tf_reference scenario_model scenario_batch = Some [ln (3 / 2); ln (1 / 2)].
Proof.
  apply (single_scalar_channel_reference scenario_model scenario_batch
           "a" echo (mkTensor [2%nat] [ln (3 / 2); ln (1 / 2)]));
    reflexivity.
Defined.

(** ** The loss and the order of the channels *)

Lemma loss_prob_ratio_permutation (self : PGProbRatioModel)
    (d : dict Distribution) (b : Batch) (ratio : Vector) :
  distributions (base self) ≡ₚ d →
  loss_prob_ratio self b = Some ratio →
  loss_prob_ratio (with_distributions self d) b = Some ratio.
Proof.
  intros Hperm Hratio.
  pose proof (loss_prob_ratio_ones self b ratio Hratio) as Hones.
  unfold loss_prob_ratio in Hratio.
  destruct (loss_prob_ratios self b) as [mats|] eqn:Hmats; [|done].
  cbn in Hratio.
  destruct (tf_concat mats) as [cat|] eqn:Hcat; [|done].
  injection Hratio as <-.
  pose proof (tf_concat_length mats cat Hcat) as Hlens.
  unfold loss_prob_ratios in Hmats. apply mapM_Some_1 in Hmats.
  assert (Hne : d ≠ []).
  { intros ->. apply Permutation_nil_r in Hperm. rewrite Hperm in Hmats.
    apply Forall2_nil_inv_l in Hmats as ->. done. }
  assert (Hitems : ∃ mats',
    loss_prob_ratios (with_distributions self d) b = Some mats' ∧
    mats' ≠ [] ∧ Forall (λ m, length m = length cat) mats').
  { unfold loss_prob_ratios. cbn [with_distributions base network distributions].
    assert (Hin : Forall (λ item, item ∈ distributions (base self)) d).
    { apply Forall_forall. intros item. by rewrite Hperm. }
    clear Hperm. induction Hin as [|item d Hitem _ IH]; [done|].
    apply list_elem_of_lookup in Hitem as [i Hi].
    destruct (Forall2_lookup_l _ _ _ _ _ Hmats Hi) as (m & Hm & Hfm).
    assert (length m = length cat).
    { rewrite Forall_forall in Hlens. apply Hlens.
      by eapply list_elem_of_lookup_2. }
    destruct d as [|item' d].
    - exists [m]. split; [|split; [done|by constructor]].
      apply mapM_Some. constructor; [exact Hfm|constructor].
    - destruct (IH ltac:(done)) as (mats' & Hmats' & _ & Hlens').
      exists (m :: mats'). split; [|split; [done|by constructor]].
      apply mapM_Some. apply mapM_Some in Hmats'.
      constructor; [exact Hfm|exact Hmats']. }
  destruct Hitems as (mats' & Hmats' & Hne' & Hlens').
  destruct (tf_concat_is_Some _ mats' Hne' Hlens') as (cat' & Hcat' & Hlen').
  assert (Hratio' : loss_prob_ratio (with_distributions self d) b
                    = Some (tf_reduce_mean_axis1 cat')).
  { unfold loss_prob_ratio. rewrite Hmats'. cbn. by rewrite Hcat'. }
  rewrite Hratio'. f_equal.
  rewrite (loss_prob_ratio_ones _ b _ Hratio'), Hones.
  unfold tf_reduce_mean_axis1. by rewrite !length_fmap, Hlen'.
Qed.

(** X11: the loss iterates the channels in the order of the dictionary,
    yet reordering the items of the dictionary changes neither whether
    [tf_loss_per_instance] returns nor what it returns. *)
Theorem loss_order_invariance (self : PGProbRatioModel)
    (d : dict Distribution) (b : Batch) :
  distributions (base self) ≡ₚ d →
  tf_loss_per_instance (with_distributions self d) b
  = tf_loss_per_instance self b.
Proof.
  intros Hperm.
  assert (Hratio : loss_prob_ratio (with_distributions self d) b
                   = loss_prob_ratio self b).
  { destruct (loss_prob_ratio self b) as [ratio|] eqn:H1.
    - by apply loss_prob_ratio_permutation.
    - destruct (loss_prob_ratio (with_distributions self d) b)
        as [ratio|] eqn:H2; [|done].
      apply (loss_prob_ratio_permutation (with_distributions self d)
               (distributions (base self))) in H2; [|done].
      change (loss_prob_ratio self b = Some ratio) in H2. congruence. }
  unfold tf_loss_per_instance. by rewrite Hratio.
Qed.

Lemma loss_order_invariance_witness :
  tf_loss_per_instance
    (with_distributions two_channel_model [("b", echo); ("a", echo)])
    two_channel_batch
  = tf_loss_per_instance two_channel_model two_channel_batch.
Proof.
  apply (loss_order_invariance two_channel_model [("b", echo); ("a", echo)]
           two_channel_batch).
  apply Permutation_swap.
Defined.

(** ** Construction and initialisation *)

(** X12: a model that the constructor returns has no clip threshold or a
    positive one, and [initialize] keeps the threshold while it replaces the
    reference and the compare by their templates. *)
Theorem constructed_threshold_valid
    (PGModel__init__ : gmap string PyObj → string + PGModel)
    (PGModel_initialize : PGModel → nat → PGModel)
    (kwargs : gmap string PyObj) (clipping : option R)
    (self : PGProbRatioModel) (custom_getter : nat) :
  __init__ PGModel__init__ kwargs clipping = inr self →
  (∀ eps, likelihood_ratio_clipping self = Some eps → 0 < eps) ∧
  likelihood_ratio_clipping (initialize PGModel_initialize self custom_getter)
    = clipping ∧
  base (initialize PGModel_initialize self custom_getter)
    = PGModel_initialize (base self) custom_getter.
Proof.
  unfold __init__. intros Hinit.
  destruct clipping as [eps|].
  - destruct (Rgt_dec eps 0) as [Hpos|]; [|done].
    destruct (PGModel__init__ kwargs); [done|]. injection Hinit as <-.
    cbn. split; [|done]. intros ? [= <-]. lra.
  - destruct (PGModel__init__ kwargs); [done|]. injection Hinit as <-.
    cbn. split; [|done]. by intros ? [=].
Qed.

Lemma constructed_threshold_valid_witness :
  (∀ eps, Some (1 / 5) = Some eps → 0 < eps) ∧
  likelihood_ratio_clipping
    (initialize (λ super _, super)
       {| base := example_base [("a", echo)] [];
          likelihood_ratio_clipping := Some (1 / 5);
          reference := PyNone; compare := PyNone |} 7)
    = Some (1 / 5).
Proof.
  destruct (constructed_threshold_valid example_init (λ super _, super)
              ∅ (Some (1 / 5))
              {| base := example_base [("a", echo)] [];
                 likelihood_ratio_clipping := Some (1 / 5);
                 reference := PyNone; compare := PyNone |} 7)
    as (Hvalid & Hkept & _).
  - unfold __init__. destruct (Rgt_dec (1 / 5) 0); [reflexivity|lra].
  - split; [exact Hvalid|exact Hkept].
Defined.
